(** * smokesignal: simple event signaling

    A shallow embedding of [smokesignal.py] and the properties of its
    registry, dispatch and scoped-emission operations.

    The module-level table [receivers = defaultdict(set)] and the attributes
    that the library attaches to callback objects are modelled as an explicit
    state: a map from signals to sets of object references, and a heap of
    objects with their attributes.  Library functions are computations in a
    state-and-exception monad; the code of user callbacks is a parameter. *)

From stdpp Require Import gmap strings list fin_maps.
From Stdlib Require Import ZArith.

Local Open Scope Z_scope.

#[local] Set Warnings "-clear-no-such-hyp".

(** ** Values and objects *)

(** Python values as far as the library inspects them: [None], integers
    ([isinstance(callback, int)]), strings, and references to heap objects. *)
Inductive Value :=
  | VNone
  | VInt (n : Z)
  | VStr (s : string)
  | VRef (r : nat).

(** Positional and keyword arguments, passed through to callbacks unchanged. *)
Record Args := mkArgs {
  positional : list Value;
  keywords : list (string * Value)
}.

Definition no_args : Args := mkArgs [] [].

Inductive Exn :=
  | AssertionError
  | AttributeError
  | TypeError
  | KeyError
  | UserError (n : nat).

(** The code of a function object: user code, identified by a number, or the
    closure [_callback] that [on] builds around a bound method. *)
Inductive Code :=
  | UserCode (n : nat)
  | WrapperCode (target : nat).

(** Heap objects: a function (any callable that is not a bound method and
    takes new attributes), a bound method ([types.MethodType]) of the
    function object [func] with its instance [self], or an object that is
    not callable.  Callables that take no new attributes, such as built-in
    functions, and objects that cannot be hashed are not among them. *)
Inductive Kind :=
  | KFunction (c : Code)
  | KMethod (self : Value) (func : nat)
  | KData.

(** The attributes the library reads and writes on a callback.
    [_max_calls = None] is the attribute being absent, [Some None] is the
    Python value [None], [Some (Some n)] an integer. *)
Record Attrs := mkAttrs {
  _max_calls : option (option Z);
  has_responds_to : bool;
  has_signals : bool;
  has_disconnect : bool;
  has_disconnect_from : bool
}.

Definition no_attrs : Attrs := mkAttrs None false false false false.

Record Obj := mkObj { kind : Kind; attrs : Attrs }.

(** A single signal or a list/tuple of signals; signals are strings. *)
Inductive SigArg :=
  | OneSignal (s : string)
  | ManySignals (l : list string).

(** What [on] returns: the registered callback, or
    [partial(_on, signals, max_calls=max_calls)]. *)
Inductive OnResult :=
  | Registered (callback : Value)
  | Registrar (signals : SigArg) (max_calls : option Z).

(** Iteration order of Python sets and of dictionary keys is not specified:
    any enumeration without repetition. *)
Class IterOrder := {
  iter_set : gset nat → list nat;
  iter_set_perm : ∀ X, iter_set X ≡ₚ elements X;
  iter_keys : gset string → list string;
  iter_keys_perm : ∀ K, iter_keys K ≡ₚ elements K
}.

(** One such order, used to run examples. *)
#[export] Instance elements_order : IterOrder :=
  {| iter_set := elements;
     iter_set_perm := λ X, reflexivity (elements X);
     iter_keys := elements;
     iter_keys_perm := λ K, reflexivity (elements K) |}.

Section Definitions.
(** The part of the program state that belongs to user code. *)
Context {W : Type}.
Context `{IterOrder}.

(** ** State *)

Record State := mkState {
  receivers : gmap string (gset nat);
  heap : gmap nat Obj;
  (** ghost: the calls that the library made, oldest first: the callback
      called by [_call], and the bound method called by its wrapper *)
  calls : list (nat * Args);
  world : W
}.

Definition set_receivers (f : gmap string (gset nat) → gmap string (gset nat))
    (st : State) : State :=
  mkState (f (receivers st)) (heap st) (calls st) (world st).

Definition set_heap (f : gmap nat Obj → gmap nat Obj) (st : State) : State :=
  mkState (receivers st) (f (heap st)) (calls st) (world st).

Definition set_calls (f : list (nat * Args) → list (nat * Args))
    (st : State) : State :=
  mkState (receivers st) (heap st) (f (calls st)) (world st).

(** ** The state and exception monad *)

Inductive Res (A : Type) :=
  | Ok (a : A) (st : State)
  | Err (e : Exn) (st : State).
Arguments Ok {A} a st.
Arguments Err {A} e st.

Definition M (A : Type) : Type := State → Res A.

Definition ret {A} (a : A) : M A := λ st, Ok a st.
Definition bind {A B} (m : M A) (k : A → M B) : M B := λ st,
  match m st with
  | Ok a st' => k a st'
  | Err e st' => Err e st'
  end.
Definition raise {A} (e : Exn) : M A := λ st, Err e st.

Notation "x <- m ;; k" := (bind m (λ x, k))
  (at level 100, m at next level, right associativity).
Notation "m ;;; k" := (bind m (λ _, k))
  (at level 100, right associativity).

Fixpoint for_each {A} (l : list A) (f : A → M unit) : M unit :=
  match l with
  | [] => ret tt
  | x :: l' => f x ;;; for_each l' f
  end.

Definition state_of {A} (r : Res A) : State :=
  match r with Ok _ st | Err _ st => st end.

(** The code of user functions. *)
Variable body : nat → Args → M unit.

(** ** The [receivers] table *)

(** [receivers[signal]]: a [defaultdict(set)] creates the key on a miss. *)
Definition getitem (signal : string) : M (gset nat) := λ st,
  match receivers st !! signal with
  | Some X => Ok X st
  | None => Ok ∅ (set_receivers (insert signal ∅) st)
  end.

Definition store (signal : string) (X : gset nat) : M unit := λ st,
  Ok tt (set_receivers (insert signal X) st).

(** [receivers[signal].add(callback)] *)
Definition set_add (signal : string) (callback : nat) : M unit :=
  X <- getitem signal ;; store signal ({[callback]} ∪ X).

(** [receivers[signal].remove(callback)]: [KeyError] when absent. *)
Definition set_remove (signal : string) (callback : nat) : M unit :=
  X <- getitem signal ;;
  if decide (callback ∈ X) then store signal (X ∖ {[callback]})
  else raise KeyError.

(** [receivers[signal].clear()] *)
Definition set_clear (signal : string) : M unit :=
  _ <- getitem signal ;; store signal ∅.

(** ** Objects and attributes *)

Definition kind_of (st : State) (r : nat) : option Kind :=
  kind <$> heap st !! r.

(** [callable(callback)] *)
Definition callable (st : State) (v : Value) : bool :=
  match v with
  | VRef r =>
      match kind_of st r with
      | Some (KFunction _) | Some (KMethod _ _) => true
      | _ => false
      end
  | _ => false
  end.

(** [isinstance(callback, types.MethodType)] *)
Definition is_method (st : State) (v : Value) : bool :=
  match v with
  | VRef r =>
      match kind_of st r with
      | Some (KMethod _ _) => true
      | _ => false
      end
  | _ => false
  end.

(** Attribute lookup: a bound method delegates to its function. *)
Definition attrs_of (st : State) (r : nat) : option Attrs :=
  match heap st !! r with
  | Some (mkObj (KFunction _) a) => Some a
  | Some (mkObj (KMethod _ f) _) =>
      match heap st !! f with
      | Some (mkObj (KFunction _) a) => Some a
      | _ => None
      end
  | _ => None
  end.

Definition max_calls_of (st : State) (r : nat) : option (option Z) :=
  a ← attrs_of st r; _max_calls a.

(** Attribute assignment: only function objects take new attributes; a
    bound method raises [AttributeError]. *)
Definition setattr (r : nat) (f : Attrs → Attrs) : M unit := λ st,
  match heap st !! r with
  | Some (mkObj (KFunction c) a) =>
      Ok tt (set_heap (insert r (mkObj (KFunction c) (f a))) st)
  | _ => Err AttributeError st
  end.

Definition with_max_calls (m : option Z) (a : Attrs) : Attrs :=
  mkAttrs (Some m) (has_responds_to a) (has_signals a)
          (has_disconnect a) (has_disconnect_from a).

Definition with_responds_to (a : Attrs) : Attrs :=
  mkAttrs (_max_calls a) true (has_signals a)
          (has_disconnect a) (has_disconnect_from a).

Definition with_signals (a : Attrs) : Attrs :=
  mkAttrs (_max_calls a) (has_responds_to a) true
          (has_disconnect a) (has_disconnect_from a).

Definition with_disconnect (a : Attrs) : Attrs :=
  mkAttrs (_max_calls a) (has_responds_to a) (has_signals a)
          true (has_disconnect_from a).

Definition with_disconnect_from (a : Attrs) : Attrs :=
  mkAttrs (_max_calls a) (has_responds_to a) (has_signals a)
          (has_disconnect a) true.

(** [if not hasattr(callback, name): callback.name = partial(...)] *)
Definition setdefault (r : nat) (has : Attrs → bool) (f : Attrs → Attrs)
    : M unit := λ st,
  match attrs_of st r with
  | Some a => if has a then Ok tt st else setattr r f st
  | None => setattr r f st
  end.

(** ** Calling a callable *)

Definition log_call (r : nat) (args : Args) : M unit := λ st,
  Ok tt (set_calls (λ l, l ++ [(r, args)]) st).

Definition bind_self (self : Value) (args : Args) : Args :=
  mkArgs (self :: positional args) (keywords args).

(** Calling a bound method calls its function with [self] prepended. *)
Definition invoke_method (m : nat) (args : Args) : M unit := λ st,
  match kind_of st m with
  | Some (KMethod self f) =>
      match kind_of st f with
      | Some (KFunction (UserCode n)) =>
          (log_call m args ;;; body n (bind_self self args)) st
      | _ => Err TypeError st
      end
  | _ => Err TypeError st
  end.

(** Calling [callback] with the arguments of the emission. *)
Definition invoke (r : nat) (args : Args) : M unit := λ st,
  match kind_of st r with
  | Some (KFunction (UserCode n)) => (log_call r args ;;; body n args) st
  | Some (KFunction (WrapperCode m)) =>
      (log_call r args ;;; invoke_method m args) st
  | Some (KMethod _ _) => invoke_method r args st
  | _ => Err TypeError st
  end.

(** ** Queries *)

(** [callback in receivers[signal]] *)
Definition responds_to (callback : nat) (signal : string) : M bool :=
  X <- getitem signal ;; ret (bool_decide (callback ∈ X)).

(** The set stored for a signal, without touching the table. *)
Definition rcv (st : State) (signal : string) : gset nat :=
  default ∅ (receivers st !! signal).

(** [tuple(s for s in receivers if responds_to(callback, s))]: every key
    looked up exists, so the table is not changed. *)
Definition signals (callback : nat) : M (list string) := λ st,
  Ok (filter (λ s, callback ∈ rcv st s) (iter_keys (dom (receivers st)))) st.

(** ** Removal *)

Definition disconnect (callback : nat) : M unit :=
  l <- signals callback ;;
  for_each l (λ signal, set_remove signal callback).

Definition sig_list (s : SigArg) : list string :=
  match s with
  | OneSignal s => [s]
  | ManySignals l => l
  end.

Definition disconnect_from (callback : nat) (signals : SigArg) : M unit :=
  for_each (sig_list signals) (λ signal,
    b <- responds_to callback signal ;;
    if b then set_remove signal callback else ret tt).

Definition clear (signals : list string) : M unit := λ st,
  let l := match signals with
           | [] => iter_keys (dom (receivers st))
           | _ => signals
           end in
  for_each l set_clear st.

Definition clear_all : M unit := λ st,
  for_each (iter_keys (dom (receivers st))) set_clear st.

(** ** Dispatch *)

(** The first step is [if not hasattr(callback, '_max_calls'):
    callback._max_calls = None]; the second reads the attribute: [None] is
    no limit, an integer at or below zero disconnects, any other integer is
    decremented before the call. *)
Definition _call (callback : nat) (args : Args) : M unit := λ st,
  ((match max_calls_of st callback with
    | None => setattr callback (with_max_calls None)
    | Some _ => ret tt
    end) ;;;
   λ st',
     match max_calls_of st' callback with
     | None => Err AttributeError st'
     | Some None => invoke callback args st'
     | Some (Some n) =>
         if decide (n ≤ 0) then disconnect callback st'
         else (setattr callback (with_max_calls (Some (n - 1))) ;;;
               invoke callback args) st'
     end) st.

(** The loop runs over [set(receivers[signal])], a copy: the list of the
    callbacks to call is fixed before the first call. *)

Definition emit (signal : string) (args : Args) : M unit :=
  X <- getitem signal ;;
  for_each (iter_set X) (λ callback, _call callback args).

(** ** Registration *)

(** A value that is not a reference to a heap object is not callable. *)
Definition _on (on_signals : SigArg) (callback : Value)
    (max_calls : option Z) : M Value := λ st,
  match callback with
  | VRef r =>
      if callable st callback then
        (setattr r (with_max_calls max_calls) ;;;
         for_each (sig_list on_signals) (λ signal, set_add signal r) ;;;
         setdefault r has_responds_to with_responds_to ;;;
         setdefault r has_signals with_signals ;;;
         setdefault r has_disconnect with_disconnect ;;;
         setdefault r has_disconnect_from with_disconnect_from ;;;
         ret callback) st
      else Err AssertionError st
  | _ => Err AssertionError st
  end.

(** The function [_callback] that [on] defines around a bound method: it
    calls the method with the arguments it receives. *)
Definition new_wrapper (target : nat) : M nat := λ st,
  let w := fresh (dom (heap st)) in
  Ok w (set_heap (insert w (mkObj (KFunction (WrapperCode target)) no_attrs)) st).

(** [callback=None] is also the default of the parameter; an integer in
    its place is taken as [max_calls]. *)
Definition on (signals : SigArg) (callback : Value) (max_calls : option Z)
    : M OnResult := λ st,
  match callback with
  | VInt n => Ok (Registrar signals (Some n)) st
  | VNone => Ok (Registrar signals max_calls) st
  | VRef r =>
      if is_method st callback then
        (w <- new_wrapper r ;;
         v <- _on signals (VRef w) max_calls ;;
         ret (Registered v)) st
      else (v <- _on signals callback max_calls ;; ret (Registered v)) st
  | _ => (v <- _on signals callback max_calls ;; ret (Registered v)) st
  end.

(** Calling the [partial] returned by [on]. *)
Definition apply_registrar (r : OnResult) (callback : Value) : M Value :=
  match r with
  | Registrar signals max_calls => _on signals callback max_calls
  | Registered _ => raise TypeError
  end.

Definition once (signals : SigArg) (callback : Value) : M OnResult :=
  on signals callback (Some 1).

(** ** Scoped emission *)

(** [try: blk finally: fin] *)
Definition try_finally {A} (blk : M A) (fin : M unit) : M A := λ st,
  match blk st with
  | Ok a st1 =>
      match fin st1 with
      | Ok _ st2 => Ok a st2
      | Err e st2 => Err e st2
      end
  | Err e st1 =>
      match fin st1 with
      | Ok _ st2 => Err e st2
      | Err e2 st2 => Err e2 st2
      end
  end.

(** [with emitting(exit, enter): blk] *)
Definition emitting (exit : string) (enter : option string) (blk : M unit)
    : M unit :=
  (match enter with
   | Some s => emit s no_args
   | None => ret tt
   end) ;;;
  try_finally blk (emit exit no_args).

End Definitions.

Arguments Ok {W A} a st.
Arguments Err {W A} e st.
Arguments State W : clear implicits.
Arguments M W A : clear implicits.
Arguments Res W A : clear implicits.

Notation "x <- m ;; k" := (bind m (λ x, k))
  (at level 100, m at next level, right associativity).
Notation "m ;;; k" := (bind m (λ _, k))
  (at level 100, right associativity).

(** ** Vocabulary of the properties *)

Definition with_world {W} (w : W) (st : State W) : State W :=
  mkState (receivers st) (heap st) (calls st) w.

(** How many times the library has called the object [c]. *)
Definition times_called {W} (c : nat) (st : State W) : nat :=
  length (filter (λ p, p.1 = c) (calls st)).

(** User code that returns normally and leaves the registry, the callback
    objects and the call log alone. *)
Definition quiet {W} (body : nat → Args → M W unit) : Prop :=
  ∀ n a st, ∃ w, body n a st = Ok tt (with_world w st).

(** Objects that [on] registers: a user function, or the wrapper of a bound
    method of a user function. *)
Definition invocable {W} (st : State W) (c : nat) : bool :=
  match kind_of st c with
  | Some (KFunction (UserCode _)) => true
  | Some (KFunction (WrapperCode m)) =>
      match kind_of st m with
      | Some (KMethod _ f) =>
          match kind_of st f with
          | Some (KFunction (UserCode _)) => true
          | _ => false
          end
      | _ => false
      end
  | _ => false
  end.

(** Objects that [on] accepts as a callback: those it registers as they
    are, and bound methods of user functions, which it wraps. *)
Definition registrable {W} (st : State W) (c : nat) : bool :=
  invocable st c ||
  match kind_of st c with
  | Some (KMethod _ f) =>
      match kind_of st f with
      | Some (KFunction (UserCode _)) => true
      | _ => false
      end
  | _ => false
  end.

Definition is_function {W} (st : State W) (c : nat) : bool :=
  match kind_of st c with
  | Some (KFunction _) => true
  | _ => false
  end.

(** The registry holds only objects that [on] can have put there. *)
Definition wf {W} (st : State W) : Prop :=
  ∀ s c, c ∈ rcv st s → invocable st c = true.

(** The registry holds only function objects: [_on] writes attributes on
    what it registers, and only function objects take them. *)
Definition registry_functions {W} (st : State W) : Prop :=
  ∀ s c, c ∈ rcv st s → is_function st c = true.

(** The objects of [st0] have in [st] the kind they had. *)
Definition stable {W} (st0 st : State W) : Prop :=
  ∀ r, is_Some (heap st0 !! r) → kind_of st r = kind_of st0 r.

(** The counter of [c] is an integer that is zero or less. *)
Definition exhausted {W} (st : State W) (c : nat) : bool :=
  match max_calls_of st c with
  | Some (Some n) => bool_decide (n ≤ 0)
  | _ => false
  end.

(** ** What the callbacks themselves observe

    The call log above is kept by the model.  The runs of user code are
    observed in the state of user code itself: a journal [log w] to which
    every run adds one entry at its end, whether it returns or raises.  The
    entry is made by [entry] from the number of the function that ran and
    the arguments it was given.  Library code never writes [world], so
    entries come from runs of callbacks only; user code that itself makes
    callbacks run, by emitting a signal, adds more than its own entry and
    does not keep a journal in this sense. *)
Definition keeps_journal {W E} (log : W → list E) (entry : nat → Args → E)
    (body : nat → Args → M W unit) : Prop :=
  ∀ n a st, log (world (state_of (body n a st))) = log (world st) ++ [entry n a].

(** The journal entry of a run. *)
Definition entry_of {E} (entry : nat → Args → E) (p : nat * Args) : E :=
  entry p.1 p.2.

(** A journal of function numbers only. *)
Definition function_ran : nat → Args → nat := λ n _, n.

(** How many times function [n] has run, by a journal of function numbers. *)
Definition times_run {W} (ran : W → list nat) (n : nat) (st : State W) : nat :=
  length (filter (λ m, m = n) (ran (world st))).

(** The user function that a call of the bound method [m] runs, and the
    arguments it runs with: the function of the method, with [self] first. *)
Definition method_target {W} (st : State W) (m : nat) (args : Args)
    : option (nat * Args) :=
  match kind_of st m with
  | Some (KMethod self f) =>
      match kind_of st f with
      | Some (KFunction (UserCode n)) => Some (n, bind_self self args)
      | _ => None
      end
  | _ => None
  end.

(** The user function that a call of the object [c] with [args] runs, and
    the arguments it runs with: a user function runs with [args]; the wrapper
    of a bound method calls the method with [args]. *)
Definition target {W} (st : State W) (c : nat) (args : Args)
    : option (nat * Args) :=
  match kind_of st c with
  | Some (KFunction (UserCode n)) => Some (n, args)
  | Some (KFunction (WrapperCode m)) => method_target st m args
  | Some (KMethod _ _) => method_target st c args
  | _ => None
  end.

(** The user function that a call of [c] runs. *)
Definition code_of {W} (st : State W) (c : nat) : option nat :=
  fst <$> target st c no_args.

(** What [_call] makes run for the callback [c] in state [st]: nothing when
    the counter of [c] is an integer at or below zero, else the target of
    [c]. *)
Definition call_runs {W} (st : State W) (c : nat) (args : Args)
    : list (nat * Args) :=
  if exhausted st c then [] else option_list (target st c args).

(** What one emission of [s] with [args] makes run from state [st], in the
    order in which the set of [s] is gone through. *)
Definition emit_runs {W} `{IterOrder} (st : State W) (s : string) (args : Args)
    : list (nat * Args) :=
  flat_map (λ c, call_runs st c args) (iter_set (rcv st s)).

(** No callback registered for [s] other than [c] runs function [n]. *)
Definition only_runner {W} (st : State W) (s : string) (c n : nat) : Prop :=
  ∀ c', c' ∈ rcv st s → c' ≠ c → code_of st c' ≠ Some n.

(** User code that may do anything to the table [receivers] and may create
    and register objects, as long as it returns normally, keeps the objects
    of [st0] what they are, leaves the objects in [X] and the call log
    alone, and adds its own entry and no other to the journal: it runs no
    callback itself. *)
Definition leaves_alone {W E} (st0 : State W) (X : gset nat)
    (log : W → list E) (entry : nat → Args → E)
    (body : nat → Args → M W unit) : Prop :=
  ∀ n a st, stable st0 st →
    ∃ st', body n a st = Ok tt st' ∧
      calls st' = calls st ∧
      log (world st') = log (world st) ++ [entry n a] ∧
      stable st0 st' ∧
      ∀ c, c ∈ X → heap st' !! c = heap st !! c.

(** The value a computation returned, if it returned. *)
Definition value_of {W A} (r : Res W A) : option A :=
  match r with
  | Ok a _ => Some a
  | Err _ _ => None
  end.

(** The state with object [o] stored at reference [r]. *)
Definition put_obj {W} (r : nat) (o : Obj) (st : State W) : State W :=
  set_heap (insert r o) st.

(** What dispatching to other callbacks leaves alone for the object [r]. *)
Definition untouched {W} (r : nat) (st st' : State W) : Prop :=
  heap st' !! r = heap st !! r ∧
  (∀ s, r ∈ rcv st' s ↔ r ∈ rcv st s) ∧
  (is_function st r = true → times_called r st' = times_called r st).

(** What [_call] does for the callback [c] it is given, from state [st] to
    state [st']: an exhausted callback is disconnected and not called; any
    other is called once, a limited one after its counter went down by one. *)
Definition served {W} (c : nat) (st st' : State W) : Prop :=
  match max_calls_of st c with
  | Some (Some n) =>
      if decide (n ≤ 0) then
        (∀ s, c ∉ rcv st' s) ∧
        times_called c st' = times_called c st ∧
        max_calls_of st' c = Some (Some n)
      else
        (∀ s, c ∈ rcv st' s ↔ c ∈ rcv st s) ∧
        times_called c st' = S (times_called c st) ∧
        max_calls_of st' c = Some (Some (n - 1))
  | _ =>
      (∀ s, c ∈ rcv st' s ↔ c ∈ rcv st s) ∧
      times_called c st' = S (times_called c st) ∧
      max_calls_of st' c = Some None
  end.

(** ** A small program

    User state is the list of the marks that user code left, in order.
    Objects [1], [2] and [3] are functions, [10] is the method [11] bound to
    the instance [20]. *)

Definition mark (n : nat) : M (list nat) unit := λ st,
  Ok tt (with_world (world st ++ [n]) st).

(** Every function leaves its number as a mark and returns. *)
Definition demo_body : nat → Args → M (list nat) unit := λ n _, mark n.

(** As [demo_body], but function [3] raises after leaving its mark. *)
Definition failing_body : nat → Args → M (list nat) unit := λ n _,
  match n with
  | 3%nat => mark n ;;; raise (UserError 3)
  | _ => mark n
  end.

(** As [demo_body], but functions [1] and [2] first register each other
    for the signal ["T"] with [max_calls=0]. *)
Definition registering_body : nat → Args → M (list nat) unit := λ n _,
  match n with
  | 1%nat => on (OneSignal "T") (VRef 2) (Some 0) ;;; mark n
  | 2%nat => on (OneSignal "T") (VRef 1) (Some 0) ;;; mark n
  | _ => mark n
  end.

(** As [demo_body], but function [2] first disconnects itself, and function
    [1] first registers callback [3] for the signal ["S"] and then clears
    that signal. *)
Definition mutating_body : nat → Args → M (list nat) unit := λ n _,
  match n with
  | 2%nat => disconnect 2 ;;; mark n
  | 1%nat => on (OneSignal "S") (VRef 3) None ;;; clear ["S"] ;;; mark n
  | _ => mark n
  end.

Definition demo_heap : gmap nat Obj :=
  <[1%nat := mkObj (KFunction (UserCode 1)) no_attrs]>
  (<[2%nat := mkObj (KFunction (UserCode 2)) no_attrs]>
  (<[3%nat := mkObj (KFunction (UserCode 3)) no_attrs]>
  (<[10%nat := mkObj (KMethod (VRef 20) 11) no_attrs]>
  (<[11%nat := mkObj (KFunction (UserCode 11)) no_attrs]>
  (<[20%nat := mkObj KData no_attrs]> ∅))))).

Definition demo_st : State (list nat) := mkState ∅ demo_heap [] [].

(** Callback [1] registered for ["S"] with a limit of three calls. *)
Definition registered_st : State (list nat) :=
  state_of (on (OneSignal "S") (VRef 1) (Some 3) demo_st).

(** Callbacks [1] and [2] registered for ["S"] without a limit. *)
Definition snap_st : State (list nat) :=
  state_of ((on (OneSignal "S") (VRef 1) None ;;;
             on (OneSignal "S") (VRef 2) None) demo_st).

(** Callbacks [1], [2] and [3] registered for ["S"] without a limit. *)
Definition three_st : State (list nat) :=
  state_of (on (OneSignal "S") (VRef 3) None snap_st).

(** Callback [1] registered for ["enter"] and callback [2] for ["exit"]. *)
Definition scoped_st : State (list nat) :=
  state_of ((on (OneSignal "enter") (VRef 1) None ;;;
             on (OneSignal "exit") (VRef 2) None) demo_st).

(** Callback [1] registered for ["A"] and callback [2] for ["B"]. *)
Definition ab_st : State (list nat) :=
  state_of ((on (OneSignal "A") (VRef 1) None ;;;
             on (OneSignal "B") (VRef 2) None) demo_st).

(** The block of a [with] statement that raises. *)
Definition failing_block : M (list nat) unit :=
  mark 100 ;;; raise (UserError 100).


(** User state as the list of the runs of user code, each with the
    arguments it was given. *)
Definition noting_body : nat → Args → M (list (nat * Args)) unit := λ n a st,
  Ok tt (with_world (world st ++ [(n, a)]) st).

(** The function [1] and the bound method [10] registered for ["S"]
    without a limit. *)
Definition noting_st : State (list (nat * Args)) :=
  state_of ((on (OneSignal "S") (VRef 1) None ;;;
             on (OneSignal "S") (VRef 10) None)
              (mkState ∅ demo_heap [] [])).

Section Properties.
Context {W : Type} `{IterOrder}.

Implicit Types (st : State W) (c r : nat) (s : string) (args : Args).

(** *** The table *)

Lemma rcv_set_receivers_insert st s s' X :
  rcv (set_receivers (insert s X) st) s' = if decide (s = s') then X else rcv st s'.
Proof.
  unfold rcv; simpl. rewrite lookup_insert. by case_decide.
Qed.

Lemma getitem_present st s X :
  receivers st !! s = Some X → getitem s st = Ok X st.
Proof. unfold getitem. by intros ->. Qed.

Lemma elem_rcv_lookup st s c :
  c ∈ rcv st s → ∃ X, receivers st !! s = Some X ∧ c ∈ X.
Proof.
  unfold rcv. destruct (receivers st !! s) as [X|]; simpl; [eauto | set_solver].
Qed.

Lemma set_remove_present st s c :
  c ∈ rcv st s →
  set_remove s c st = Ok tt (set_receivers (insert s (rcv st s ∖ {[c]})) st).
Proof.
  intros Hc. destruct (elem_rcv_lookup _ _ _ Hc) as (X & HX & HcX).
  unfold set_remove, bind. rewrite (getitem_present _ _ _ HX).
  rewrite decide_True by done. unfold store, rcv. by rewrite HX.
Qed.

(** The loop of [disconnect]: removing [c] from the sets of distinct
    signals that all hold it. *)
Lemma remove_loop c (l : list string) : ∀ st,
  NoDup l → (∀ s, s ∈ l → c ∈ rcv st s) →
  ∃ st', for_each l (λ s, set_remove s c) st = Ok tt st' ∧
    heap st' = heap st ∧ calls st' = calls st ∧ world st' = world st ∧
    ∀ s, rcv st' s = if decide (s ∈ l) then rcv st s ∖ {[c]} else rcv st s.
Proof.
  induction l as [|s0 l IH]; intros st Hnd Hin.
  - exists st. simpl. repeat split; try done.
  - apply NoDup_cons in Hnd as [Hs0 Hnd].
    simpl. unfold bind at 1.
    rewrite set_remove_present by (apply Hin; left).
    set (st1 := set_receivers _ st).
    destruct (IH st1 Hnd) as (st' & Hrun & Hh & Hc & Hw & Hr).
    { intros s Hs. unfold st1. rewrite rcv_set_receivers_insert.
      case_decide; [subst; done|]. apply Hin. by right. }
    exists st'. rewrite Hrun. repeat split; try done.
    intros s. rewrite Hr. unfold st1. rewrite rcv_set_receivers_insert.
    destruct (decide (s0 = s)) as [->|Hne].
    + rewrite decide_False by done. rewrite decide_True by left. done.
    + destruct (decide (s ∈ l)).
      * rewrite decide_True by (by right). done.
      * rewrite decide_False; [done|]. intros [?|?]%elem_of_cons; congruence.
Qed.

Lemma disconnect_spec c st :
  ∃ st', disconnect c st = Ok tt st' ∧
    heap st' = heap st ∧ calls st' = calls st ∧ world st' = world st ∧
    ∀ s, rcv st' s = rcv st s ∖ {[c]}.
Proof.
  unfold disconnect, bind, signals.
  set (l := filter _ _).
  destruct (remove_loop c l st) as (st' & Hrun & Hh & Hc & Hw & Hr).
  - apply NoDup_filter. rewrite iter_keys_perm. apply NoDup_elements.
  - intros s Hs. unfold l in Hs. by apply list_elem_of_filter in Hs as [? _].
  - exists st'. repeat split; try done.
    intros s. rewrite Hr. case_decide as Hs; [done|].
    assert (c ∉ rcv st s); [|set_solver].
    intros Hc'. apply Hs. unfold l. apply list_elem_of_filter. split; [done|].
    rewrite iter_keys_perm. apply elem_of_elements, elem_of_dom.
    destruct (elem_rcv_lookup _ _ _ Hc') as (X & -> & _). eauto.
Qed.

(** *** Objects *)

Lemma kind_function_heap st c k :
  kind_of st c = Some (KFunction k) →
  ∃ a, heap st !! c = Some (mkObj (KFunction k) a).
Proof.
  unfold kind_of. destruct (heap st !! c) as [[k' a]|]; simpl; [|done].
  intros [= ->]. eauto.
Qed.

Lemma invocable_function st c :
  invocable st c = true → ∃ k, kind_of st c = Some (KFunction k).
Proof.
  unfold invocable. destruct (kind_of st c) as [[k| |]|]; try done. eauto.
Qed.

Lemma invocable_kinds st st' c :
  (∀ r, kind_of st' r = kind_of st r) → invocable st' c = invocable st c.
Proof.
  intros Hk. unfold invocable. rewrite Hk.
  destruct (kind_of st c) as [[[n|m]| |]|]; try done.
  rewrite Hk. destruct (kind_of st m) as [[|self f|]|]; try done.
  by rewrite Hk.
Qed.

Lemma is_function_kinds st st' c :
  (∀ r, kind_of st' r = kind_of st r) → is_function st' c = is_function st c.
Proof. intros Hk. unfold is_function. by rewrite Hk. Qed.

Lemma stable_kind st0 st r k :
  stable st0 st → kind_of st0 r = Some k → kind_of st r = Some k.
Proof.
  intros Hst Hk. rewrite Hst; [done|].
  unfold kind_of in Hk. destruct (heap st0 !! r); [eauto|done].
Qed.

Lemma stable_invocable st0 st c :
  stable st0 st → invocable st0 c = true → invocable st c = true.
Proof.
  intros Hst. unfold invocable.
  destruct (kind_of st0 c) as [[[n|m]| |]|] eqn:Hc; try done;
    rewrite (stable_kind _ _ _ _ Hst Hc); [done|].
  destruct (kind_of st0 m) as [[|self f|]|] eqn:Hm; try done.
  rewrite (stable_kind _ _ _ _ Hst Hm).
  destruct (kind_of st0 f) as [k|] eqn:Hf; [|done].
  by rewrite (stable_kind _ _ _ _ Hst Hf).
Qed.

Lemma stable_is_function st0 st c :
  stable st0 st → is_function st0 c = true → is_function st c = true.
Proof.
  intros Hst. unfold is_function.
  destruct (kind_of st0 c) as [k|] eqn:Hc; [|done].
  by rewrite (stable_kind _ _ _ _ Hst Hc).
Qed.

Lemma stable_kinds st0 st st' :
  (∀ r, kind_of st' r = kind_of st r) → stable st0 st → stable st0 st'.
Proof. intros Hk Hst r Hr. rewrite Hk. by apply Hst. Qed.

Lemma setattr_function st r k a f :
  heap st !! r = Some (mkObj (KFunction k) a) →
  setattr r f st = Ok tt (set_heap (insert r (mkObj (KFunction k) (f a))) st).
Proof. unfold setattr. by intros ->. Qed.

Lemma kind_of_set_attrs st r k a a' r' :
  heap st !! r = Some (mkObj (KFunction k) a) →
  kind_of (set_heap (insert r (mkObj (KFunction k) a')) st) r' = kind_of st r'.
Proof.
  intros Hr. unfold kind_of; simpl. rewrite lookup_insert.
  case_decide; [subst; by rewrite Hr|done].
Qed.

Lemma max_calls_of_function st c k a :
  heap st !! c = Some (mkObj (KFunction k) a) →
  max_calls_of st c = _max_calls a.
Proof. unfold max_calls_of, attrs_of. by intros ->. Qed.

Lemma max_calls_of_heap st st' c :
  is_function st c = true → heap st' !! c = heap st !! c →
  max_calls_of st' c = max_calls_of st c.
Proof.
  unfold is_function, kind_of, max_calls_of, attrs_of. intros Hf ->.
  by destruct (heap st !! c) as [[[]]|].
Qed.

(** *** The call log *)

Lemma times_called_log st r c args :
  times_called r (set_calls (λ l, l ++ [(c, args)]) st) =
  if decide (c = r) then S (times_called r st) else times_called r st.
Proof.
  unfold times_called; simpl. rewrite filter_app, length_app.
  rewrite filter_cons, filter_nil; simpl.
  repeat case_decide; simpl; try done; lia.
Qed.

Lemma times_called_with_world st r (w : W) :
  times_called r (with_world w st) = times_called r st.
Proof. done. Qed.



Lemma untouched_refl st r : untouched r st st.
Proof. by repeat split. Qed.

Lemma untouched_trans st1 st2 st3 r :
  (∀ r', kind_of st2 r' = kind_of st1 r') →
  untouched r st1 st2 → untouched r st2 st3 → untouched r st1 st3.
Proof.
  intros Hk (Hh1 & Hm1 & Ht1) (Hh2 & Hm2 & Ht2). repeat split.
  - congruence.
  - intros ?. by apply Hm1, Hm2.
  - intros ?. by apply Hm2, Hm1.
  - intros Hf. rewrite Ht2, Ht1; [done..|].
    by rewrite (is_function_kinds st1 st2).
Qed.

Lemma served_after st st1 st' c :
  is_function st c = true → untouched c st st1 → served c st1 st' →
  served c st st'.
Proof.
  intros Hf (Hh & Hm & Ht). unfold served.
  rewrite (max_calls_of_heap st st1) by done. rewrite <-(Ht Hf).
  destruct (max_calls_of st c) as [[n|]|]; [case_decide|..];
    intros (Hm' & -> & ->); repeat split; try done;
    intros ?; by (apply Hm, Hm' || apply Hm', Hm).
Qed.

Lemma served_before st st1 st' c :
  is_function st1 c = true → served c st st1 → untouched c st1 st' →
  served c st st'.
Proof.
  intros Hf Hs (Hh & Hm & Ht). unfold served in *.
  rewrite (max_calls_of_heap st1 st') by done. rewrite (Ht Hf).
  destruct (max_calls_of st c) as [[n|]|]; [case_decide|..];
    destruct Hs as (Hm' & -> & ->); repeat split; try done;
    try (intros ?; by (apply Hm', Hm || apply Hm, Hm')).
  intros s. rewrite Hm. apply Hm'.
Qed.

Lemma getitem_spec st s :
  ∃ st0, getitem s st = Ok (rcv st s) st0 ∧
    heap st0 = heap st ∧ calls st0 = calls st ∧ world st0 = world st ∧
    (∀ s', rcv st0 s' = rcv st s') ∧
    dom (receivers st0) = {[s]} ∪ dom (receivers st).
Proof.
  unfold getitem, rcv. destruct (receivers st !! s) as [X|] eqn:Hs.
  - exists st. repeat split; try done.
    apply elem_of_dom_2 in Hs. set_solver.
  - eexists. split; [done|]. simpl. repeat split; try done.
    + intros s'. rewrite lookup_insert. case_decide; [subst|done].
      by rewrite Hs.
    + by rewrite dom_insert_L.
Qed.

Lemma untouched_same st st0 r :
  heap st0 = heap st → calls st0 = calls st → (∀ s, rcv st0 s = rcv st s) →
  untouched r st st0.
Proof.
  intros Hh Hc Hr. repeat split.
  - by rewrite Hh.
  - by rewrite Hr.
  - by rewrite Hr.
  - intros _. unfold times_called. by rewrite Hc.
Qed.

(** *** Registration of a function object *)

Lemma set_add_spec st s c :
  set_add s c st = Ok tt (set_receivers (insert s ({[c]} ∪ rcv st s)) st).
Proof.
  unfold set_add, bind, getitem, store, rcv, set_receivers.
  destruct (receivers st !! s); simpl; [done|].
  by rewrite insert_insert_eq.
Qed.

Lemma add_loop c (l : list string) : ∀ st,
  ∃ st', for_each l (λ s, set_add s c) st = Ok tt st' ∧
    heap st' = heap st ∧ calls st' = calls st ∧ world st' = world st ∧
    (∀ s, rcv st' s = if decide (s ∈ l) then {[c]} ∪ rcv st s else rcv st s) ∧
    dom (receivers st') = list_to_set l ∪ dom (receivers st).
Proof.
  induction l as [|s0 l IH]; intros st.
  - exists st. simpl. repeat split; try done. set_solver.
  - simpl. unfold bind at 1. rewrite set_add_spec.
    set (st1 := set_receivers _ st).
    destruct (IH st1) as (st' & -> & Hh & Hc & Hw & Hr & Hd).
    exists st'. repeat split; try done.
    + intros s. rewrite Hr. unfold st1. rewrite !rcv_set_receivers_insert.
      destruct (decide (s0 = s)) as [->|Hne].
      * rewrite (decide_True (P := s ∈ s :: l)) by left.
        case_decide; [|done]. set_solver.
      * destruct (decide (s ∈ l)).
        -- rewrite decide_True by (by right). done.
        -- rewrite decide_False; [done|].
           intros [?|?]%elem_of_cons; congruence.
    + rewrite Hd. unfold st1; simpl. rewrite dom_insert_L. set_solver.
Qed.

Lemma setdefault_function st r k a has f :
  heap st !! r = Some (mkObj (KFunction k) a) →
  setdefault r has f st =
  Ok tt (if has a then st else put_obj r (mkObj (KFunction k) (f a)) st).
Proof.
  intros Hr. unfold setdefault, attrs_of. rewrite Hr.
  destruct (has a); [done|]. by apply setattr_function.
Qed.

Lemma put_obj_put_obj r o1 o2 st :
  put_obj r o2 (put_obj r o1 st) = put_obj r o2 st.
Proof. unfold put_obj, set_heap; simpl. by rewrite insert_insert_eq. Qed.

Lemma put_obj_lookup r o st : heap (put_obj r o st) !! r = Some o.
Proof. unfold put_obj; simpl. by rewrite lookup_insert_eq. Qed.

(** The four helper attributes, each set unless already there. *)
Lemma attach_helpers st r k m :
  ∀ b1 b2 b3 b4,
  (setdefault r has_responds_to with_responds_to ;;;
   setdefault r has_signals with_signals ;;;
   setdefault r has_disconnect with_disconnect ;;;
   setdefault r has_disconnect_from with_disconnect_from)
    (put_obj r (mkObj (KFunction k) (mkAttrs m b1 b2 b3 b4)) st) =
  Ok tt (put_obj r (mkObj (KFunction k) (mkAttrs m true true true true)) st).
Proof.
  intros [] [] [] []; unfold bind;
    repeat (rewrite (setdefault_function _ _ _ _ _ _ (put_obj_lookup _ _ _));
            unfold with_responds_to, with_signals, with_disconnect,
              with_disconnect_from;
            cbn [has_responds_to has_signals has_disconnect
                 has_disconnect_from _max_calls];
            rewrite ?put_obj_put_obj);
    done.
Qed.

Lemma put_obj_id r o st : heap st !! r = Some o → put_obj r o st = st.
Proof.
  intros Hr. destruct st as [rc hp cl w]. unfold put_obj, set_heap; simpl in Hr |- *.
  by rewrite insert_id.
Qed.

Lemma attach_helpers_at st r k a :
  heap st !! r = Some (mkObj (KFunction k) a) →
  (setdefault r has_responds_to with_responds_to ;;;
   setdefault r has_signals with_signals ;;;
   setdefault r has_disconnect with_disconnect ;;;
   setdefault r has_disconnect_from with_disconnect_from) st =
  Ok tt (put_obj r
           (mkObj (KFunction k) (mkAttrs (_max_calls a) true true true true))
           st).
Proof.
  intros Hr. destruct a as [m b1 b2 b3 b4].
  rewrite <-(put_obj_id _ _ _ Hr) at 1. by rewrite attach_helpers.
Qed.

(** Registration of a function object, whatever state it is in. *)
Lemma _on_function st c k a sigs max :
  heap st !! c = Some (mkObj (KFunction k) a) →
  ∃ st', _on sigs (VRef c) max st = Ok (VRef c) st' ∧
    heap st' =
      <[c := mkObj (KFunction k) (mkAttrs (Some max) true true true true)]>
        (heap st) ∧
    calls st' = calls st ∧ world st' = world st ∧
    (∀ s, rcv st' s =
          if decide (s ∈ sig_list sigs) then {[c]} ∪ rcv st s else rcv st s) ∧
    dom (receivers st') = list_to_set (sig_list sigs) ∪ dom (receivers st).
Proof.
  intros Ha. unfold _on, callable, kind_of. rewrite Ha. simpl.
  unfold bind at 1. rewrite (setattr_function _ _ _ _ _ Ha).
  set (st1 := set_heap _ st).
  destruct (add_loop c (sig_list sigs) st1) as (st2 & Hrun & Hh & Hc & Hw & Hr & Hd).
  unfold bind at 1. rewrite Hrun.
  assert (Hc2 : heap st2 !! c =
    Some (mkObj (KFunction k) (with_max_calls max a))).
  { rewrite Hh. unfold st1; simpl. by rewrite lookup_insert_eq. }
  pose proof (attach_helpers_at st2 c k _ Hc2) as Hattach.
  unfold bind in Hattach. unfold bind. 
  destruct (setdefault c has_responds_to with_responds_to st2)
    as [[] st3|e st3]; [|done].
  destruct (setdefault c has_signals with_signals st3)
    as [[] st4|e st4]; [|done].
  destruct (setdefault c has_disconnect with_disconnect st4)
    as [[] st5|e st5]; [|done].
  rewrite Hattach. unfold ret. eexists. split; [done|].
  unfold rcv. simpl. rewrite Hh, Hc, Hw. unfold st1; simpl.
  rewrite insert_insert_eq. repeat split; try done.
Qed.

Lemma on_function st c k a sigs max :
  heap st !! c = Some (mkObj (KFunction k) a) →
  on sigs (VRef c) max st =
  match _on sigs (VRef c) max st with
  | Ok v st' => Ok (Registered v) st'
  | Err e st' => Err e st'
  end.
Proof.
  intros Ha. unfold on, is_method, kind_of. rewrite Ha. cbn -[_on].
  unfold bind, ret. by destruct (_on sigs (VRef c) max st).
Qed.

Lemma kinds_put_attrs st st' c k a a' :
  heap st !! c = Some (mkObj (KFunction k) a) →
  heap st' = <[c := mkObj (KFunction k) a']> (heap st) →
  ∀ r, kind_of st' r = kind_of st r.
Proof.
  intros Ha Hh r. unfold kind_of. rewrite Hh, lookup_insert.
  case_decide; [subst; by rewrite Ha|done].
Qed.

Lemma invocable_heap st c :
  invocable st c = true →
  ∃ k a, heap st !! c = Some (mkObj (KFunction k) a).
Proof.
  intros Hi. destruct (invocable_function _ _ Hi) as [k Hk].
  destruct (kind_function_heap _ _ _ Hk) as [a Ha]. eauto.
Qed.

(** [on] for an object that is registered as it is: a user function, or a
    wrapper that an earlier [on] returned. *)
Lemma on_invocable st c sigs max :
  wf st → invocable st c = true →
  ∃ st', on sigs (VRef c) max st = Ok (Registered (VRef c)) st' ∧
    wf st' ∧
    (∀ r, kind_of st' r = kind_of st r) ∧
    max_calls_of st' c = Some max ∧
    (∀ r, r ≠ c → heap st' !! r = heap st !! r) ∧
    calls st' = calls st ∧
    (∀ s, rcv st' s =
          if decide (s ∈ sig_list sigs) then {[c]} ∪ rcv st s else rcv st s).
Proof.
  intros Hwf Hi. destruct (invocable_heap _ _ Hi) as (k & a & Ha).
  destruct (_on_function st c k a sigs max Ha)
    as (st' & Hrun & Hh & Hc & Hw & Hr & Hd).
  assert (Hk : ∀ r, kind_of st' r = kind_of st r)
    by (by apply kinds_put_attrs with c k a
          (mkAttrs (Some max) true true true true)).
  exists st'. rewrite (on_function _ _ _ _ _ _ Ha), Hrun.
  split; [done|]. split; [|split; [done|split; [|split; [|done]]]].
  - intros s r. rewrite Hr, (invocable_kinds st) by done.
    case_decide; [|apply Hwf].
    intros [->%elem_of_singleton|?]%elem_of_union; [done|by apply (Hwf s)].
  - unfold max_calls_of, attrs_of. by rewrite Hh, lookup_insert_eq.
  - intros r Hne. by rewrite Hh, lookup_insert_ne.
Qed.

(** [on] for a bound method: a new function object is made and registered. *)
Lemma on_wrapper st m self f sigs max :
  kind_of st m = Some (KMethod self f) →
  ∃ w st',
    on sigs (VRef m) max st = Ok (Registered (VRef w)) st' ∧
    heap st !! w = None ∧
    heap st' =
      <[w := mkObj (KFunction (WrapperCode m))
               (mkAttrs (Some max) true true true true)]> (heap st) ∧
    calls st' = calls st ∧
    (∀ s, rcv st' s =
          if decide (s ∈ sig_list sigs) then {[w]} ∪ rcv st s else rcv st s).
Proof.
  intros Hm.
  set (w := fresh (dom (heap st))).
  assert (Hw : heap st !! w = None)
    by (apply not_elem_of_dom, is_fresh).
  set (st0 := set_heap
    (insert w (mkObj (KFunction (WrapperCode m)) no_attrs)) st).
  destruct (_on_function st0 w (WrapperCode m) no_attrs sigs max)
    as (st' & Hrun & Hh & Hc & _ & Hr & _).
  { unfold st0; simpl. by rewrite lookup_insert_eq. }
  exists w, st'. split; [|repeat split; try done].
  - unfold on, is_method. rewrite Hm. unfold bind, new_wrapper.
    fold w. fold st0. by rewrite Hrun.
  - rewrite Hh. unfold st0; simpl. by rewrite insert_insert_eq.
Qed.

Lemma stable_new_object st st' w o :
  heap st !! w = None → heap st' = <[w := o]> (heap st) → stable st st'.
Proof.
  intros Hw Hh r [x Hr]. unfold kind_of. rewrite Hh, lookup_insert_ne; [done|].
  intros <-. congruence.
Qed.

(** [on] for any object it accepts as a callback: [w] is what ends up in the
    registry, the object itself or the new wrapper of a bound method. *)
Lemma on_registrable st cb sigs max :
  wf st → registrable st cb = true →
  ∃ w st',
    on sigs (VRef cb) max st = Ok (Registered (VRef w)) st' ∧
    (is_function st cb = true → w = cb) ∧
    wf st' ∧ invocable st' w = true ∧ stable st st' ∧
    max_calls_of st' w = Some max ∧
    calls st' = calls st ∧
    (∀ s, rcv st' s =
          if decide (s ∈ sig_list sigs) then {[w]} ∪ rcv st s else rcv st s).
Proof.
  intros Hwf Hreg. destruct (invocable st cb) eqn:Hi.
  - destruct (on_invocable st cb sigs max Hwf Hi)
      as (st' & Hon & Hwf' & Hk & Hm & _ & Hc & Hr).
    exists cb, st'. repeat split; try done.
    + by rewrite (invocable_kinds st).
    + intros r _. apply Hk.
  - unfold registrable in Hreg. rewrite Hi in Hreg. simpl in Hreg.
    destruct (kind_of st cb) as [[|self f|]|] eqn:Hcb; try done.
    destruct (kind_of st f) as [[[n|]| |]|] eqn:Hf; try done.
    destruct (on_wrapper st cb self f sigs max Hcb)
      as (w & st' & Hon & Hw & Hh & Hc & Hr).
    assert (Hst : stable st st') by (by eapply stable_new_object).
    assert (Hiw : invocable st' w = true).
    { unfold invocable, kind_of at 1. rewrite Hh, lookup_insert_eq. simpl.
      rewrite (stable_kind _ _ _ _ Hst Hcb).
      by rewrite (stable_kind _ _ _ _ Hst Hf). }
    exists w, st'. repeat split; try done.
    + unfold is_function. by rewrite Hcb.
    + intros s c. rewrite Hr. intros Hin.
      assert (c = w ∨ c ∈ rcv st s) as [->|Hin'].
      { case_decide; [|by right].
        apply elem_of_union in Hin as [->%elem_of_singleton|?]; auto. }
      * done.
      * apply stable_invocable with st; [done|]. by apply (Hwf s).
    + unfold max_calls_of, attrs_of. by rewrite Hh, lookup_insert_eq.
Qed.



Lemma served_live st st' c n :
  served c st st' → max_calls_of st c = Some (Some n) → 0 < n →
  (∀ s, c ∈ rcv st' s ↔ c ∈ rcv st s) ∧
  times_called c st' = S (times_called c st) ∧
  max_calls_of st' c = Some (Some (n - 1)).
Proof.
  unfold served. intros Hs Hm Hn. rewrite Hm in Hs.
  by rewrite decide_False in Hs by lia.
Qed.

Lemma served_exhausted st st' c n :
  served c st st' → max_calls_of st c = Some (Some n) → n ≤ 0 →
  (∀ s, c ∉ rcv st' s) ∧
  times_called c st' = times_called c st ∧
  max_calls_of st' c = Some (Some n).
Proof.
  unfold served. intros Hs Hm Hn. rewrite Hm in Hs.
  by rewrite decide_True in Hs by lia.
Qed.

Lemma served_unlimited st st' c :
  served c st st' → max_calls_of st c = Some None →
  (∀ s, c ∈ rcv st' s ↔ c ∈ rcv st s) ∧
  times_called c st' = S (times_called c st) ∧
  max_calls_of st' c = Some None.
Proof. unfold served. intros Hs Hm. by rewrite Hm in Hs. Qed.

Lemma responds_to_value st c s :
  value_of (responds_to c s st) = Some (bool_decide (c ∈ rcv st s)).
Proof.
  unfold responds_to, bind.
  destruct (getitem_spec st s) as (st0 & -> & _). done.
Qed.

Lemma elem_rcv_registered st' st c s (l : list string) :
  (∀ s, rcv st' s = if decide (s ∈ l) then {[c]} ∪ rcv st s else rcv st s) →
  s ∈ l → c ∈ rcv st' s.
Proof.
  intros Hr Hs. rewrite Hr, decide_True by done.
  apply elem_of_union_l. by apply elem_of_singleton.
Qed.

Lemma receivers_eq st st' :
  (∀ s, rcv st' s = rcv st s) →
  dom (receivers st') = dom (receivers st) →
  receivers st' = receivers st.
Proof.
  intros Hr Hd. apply map_eq. intros s. specialize (Hr s). unfold rcv in Hr.
  destruct (receivers st' !! s) as [X'|] eqn:H1;
    destruct (receivers st !! s) as [X|] eqn:H2; simpl in *.
  - by subst.
  - apply elem_of_dom_2 in H1. rewrite Hd in H1.
    apply elem_of_dom in H1 as [? ?]. congruence.
  - apply elem_of_dom_2 in H2. rewrite <-Hd in H2.
    apply elem_of_dom in H2 as [? ?]. congruence.
  - done.
Qed.

(** *** A call of a callback is a run of its function *)

Lemma exhausted_heap st st' c :
  is_function st c = true → heap st' !! c = heap st !! c →
  exhausted st' c = exhausted st c.
Proof.
  intros Hf Hh. unfold exhausted. by rewrite (max_calls_of_heap st st').
Qed.

Lemma method_target_kinds st st' m args :
  (∀ r, kind_of st' r = kind_of st r) →
  method_target st' m args = method_target st m args.
Proof.
  intros Hk. unfold method_target. rewrite Hk.
  destruct (kind_of st m) as [[|self f|]|]; try done. by rewrite Hk.
Qed.

Lemma target_kinds st st' c args :
  (∀ r, kind_of st' r = kind_of st r) → target st' c args = target st c args.
Proof.
  intros Hk. unfold target. rewrite Hk.
  destruct (kind_of st c) as [[[n|m]| |]|]; try done;
    by apply method_target_kinds.
Qed.

Lemma code_of_kinds st st' c :
  (∀ r, kind_of st' r = kind_of st r) → code_of st' c = code_of st c.
Proof. intros Hk. unfold code_of. by rewrite (target_kinds st st'). Qed.

Lemma call_runs_same st st' c args :
  (∀ r, kind_of st' r = kind_of st r) → is_function st c = true →
  heap st' !! c = heap st !! c →
  call_runs st' c args = call_runs st c args.
Proof.
  intros Hk Hf Hh. unfold call_runs.
  by rewrite (exhausted_heap st st'), (target_kinds st st').
Qed.

(** The function that runs does not depend on the arguments. *)
Lemma target_code st c args :
  fst <$> target st c args = code_of st c.
Proof.
  unfold code_of, target, method_target.
  destruct (kind_of st c) as [[[n|m]|self f|]|]; try done.
  - destruct (kind_of st m) as [[|self f|]|]; try done.
    by destruct (kind_of st f) as [[[n|]| |]|].
  - by destruct (kind_of st f) as [[[n|]| |]|].
Qed.

Lemma invocable_target st c args :
  invocable st c = true → ∃ n a, target st c args = Some (n, a).
Proof.
  unfold invocable, target, method_target.
  destruct (kind_of st c) as [[[n|m]| |]|]; try done; [eauto|].
  destruct (kind_of st m) as [[|self f|]|]; try done.
  destruct (kind_of st f) as [[[n|]| |]|]; try done. eauto.
Qed.

Lemma invocable_is_function st c :
  invocable st c = true → is_function st c = true.
Proof.
  intros Hi. destruct (invocable_function _ _ Hi) as [k Hk].
  unfold is_function. by rewrite Hk.
Qed.

Lemma stable_target st0 st c args :
  stable st0 st → invocable st0 c = true →
  target st c args = target st0 c args.
Proof.
  intros Hst. unfold invocable, target, method_target.
  destruct (kind_of st0 c) as [[[n|m]| |]|] eqn:Hc; try done;
    rewrite (stable_kind _ _ _ _ Hst Hc); [done|].
  destruct (kind_of st0 m) as [[|self f|]|] eqn:Hm; try done.
  rewrite (stable_kind _ _ _ _ Hst Hm).
  destruct (kind_of st0 f) as [k|] eqn:Hf; [|done].
  by rewrite (stable_kind _ _ _ _ Hst Hf).
Qed.

Section Runs.
Variable body : nat → Args → M W unit.

Lemma invoke_method_run st m args n a :
  method_target st m args = Some (n, a) →
  invoke_method body m args st =
  body n a (set_calls (λ l, l ++ [(m, args)]) st).
Proof.
  unfold method_target, invoke_method.
  destruct (kind_of st m) as [[|self f|]|]; try done.
  destruct (kind_of st f) as [[[n'|]| |]|]; try done.
  by intros [= <- <-].
Qed.

(** Calling an object runs its target, in a state that differs from the
    state of the call by the record of the call only. *)
Lemma invoke_run st c args n a :
  target st c args = Some (n, a) →
  ∃ stc, invoke body c args st = body n a stc ∧
    receivers stc = receivers st ∧ heap stc = heap st ∧
    world stc = world st.
Proof.
  unfold target, invoke.
  destruct (kind_of st c) as [[[n'|m]|self f|]|] eqn:Hc; try done.
  - intros [= <- <-]. by exists (set_calls (λ l, l ++ [(c, args)]) st).
  - intros Ht.
    exists (set_calls (λ l, l ++ [(m, args)])
              (set_calls (λ l, l ++ [(c, args)]) st)).
    split; [|done]. unfold bind, log_call. by apply invoke_method_run.
  - intros Ht. exists (set_calls (λ l, l ++ [(c, args)]) st).
    split; [by apply invoke_method_run|done].
Qed.

(** [_call] on a callback whose counter is not used up runs the target of
    the callback, in a state that differs from the state of the call by the
    counter of the callback and the record of the call only. *)
Lemma _call_run st c args n a :
  is_function st c = true → exhausted st c = false →
  target st c args = Some (n, a) →
  ∃ stc, _call body c args st = body n a stc ∧
    receivers stc = receivers st ∧ world stc = world st ∧
    (∀ r, kind_of stc r = kind_of st r) ∧
    (∀ r, r ≠ c → heap stc !! r = heap st !! r).
Proof.
  intros Hf Hex Ht.
  assert (∃ k a0, heap st !! c = Some (mkObj (KFunction k) a0))
    as (k & a0 & Ha).
  { unfold is_function in Hf.
    destruct (kind_of st c) as [[k| |]|] eqn:Hk; try done.
    destruct (kind_function_heap _ _ _ Hk) as [a0 Ha]. eauto. }
  assert (Hset : ∀ a1, let st1 := set_heap (insert c (mkObj (KFunction k) a1)) st in
    ∃ stc, invoke body c args st1 = body n a stc ∧
      receivers stc = receivers st ∧ world stc = world st ∧
      (∀ r, kind_of stc r = kind_of st r) ∧
      (∀ r, r ≠ c → heap stc !! r = heap st !! r)).
  { intros a1 st1.
    assert (Hk1 : ∀ r, kind_of st1 r = kind_of st r)
      by (intros r; by apply kind_of_set_attrs with a0).
    destruct (invoke_run st1 c args n a) as (stc & Hrun & Hr & Hh & Hw).
    { by rewrite (target_kinds st st1). }
    exists stc. split; [done|]. split; [done|]. split; [done|]. split.
    - intros r. unfold kind_of. rewrite Hh. apply Hk1.
    - intros r Hne. rewrite Hh. unfold st1; simpl. by rewrite lookup_insert_ne. }
  unfold exhausted in Hex. rewrite (max_calls_of_function _ _ _ _ Ha) in Hex.
  unfold _call. unfold bind at 1.
  rewrite (max_calls_of_function _ _ _ _ Ha).
  destruct (_max_calls a0) as [[m|]|] eqn:Hmc.
  - unfold ret. rewrite (max_calls_of_function _ _ _ _ Ha), Hmc.
    apply bool_decide_eq_false in Hex. rewrite decide_False by done.
    unfold bind. rewrite (setattr_function _ _ _ _ _ Ha). apply Hset.
  - unfold ret. rewrite (max_calls_of_function _ _ _ _ Ha), Hmc.
    destruct (invoke_run st c args n a Ht) as (stc & Hrun & Hr & Hh & Hw).
    exists stc. split; [done|]. split; [done|]. split; [done|]. split.
    + intros r. unfold kind_of. by rewrite Hh.
    + intros r _. by rewrite Hh.
  - rewrite (setattr_function _ _ _ _ _ Ha).
    set (st1 := set_heap _ st).
    assert (Hm1 : max_calls_of st1 c = Some None).
    { unfold max_calls_of, attrs_of, st1. simpl. by rewrite lookup_insert_eq. }
    rewrite Hm1. apply Hset.
Qed.

(** [_call] on a callback whose counter is used up disconnects it. *)
Lemma _call_exhausted st c args :
  is_function st c = true → exhausted st c = true →
  _call body c args st = disconnect c st.
Proof.
  intros Hf Hex. unfold is_function in Hf.
  destruct (kind_of st c) as [[k| |]|] eqn:Hk; try done.
  destruct (kind_function_heap _ _ _ Hk) as [a0 Ha].
  unfold exhausted in Hex. rewrite (max_calls_of_function _ _ _ _ Ha) in Hex.
  unfold _call. unfold bind at 1.
  rewrite (max_calls_of_function _ _ _ _ Ha).
  destruct (_max_calls a0) as [[m|]|] eqn:Hmc; try done.
  unfold ret. rewrite (max_calls_of_function _ _ _ _ Ha), Hmc.
  apply bool_decide_eq_true in Hex. by rewrite decide_True.
Qed.

(** The journal after [_call], when user code keeps its journal in the
    states that have the objects of [st]. *)
Lemma _call_journal {E} (log : W → list E) entry st c args :
  (∀ n a stc, (∀ r, kind_of stc r = kind_of st r) →
     log (world (state_of (body n a stc))) = log (world stc) ++ [entry n a]) →
  invocable st c = true →
  log (world (state_of (_call body c args st))) =
  log (world st) ++ map (entry_of entry) (call_runs st c args).
Proof.
  intros Hj Hi. pose proof (invocable_is_function _ _ Hi) as Hf.
  destruct (invocable_target st c args Hi) as (n & a & Ht).
  unfold call_runs. destruct (exhausted st c) eqn:Hex.
  - rewrite _call_exhausted by done.
    destruct (disconnect_spec c st) as (st' & -> & _ & _ & Hw & _).
    simpl. by rewrite Hw, app_nil_r.
  - destruct (_call_run st c args n a Hf Hex Ht)
      as (stc & -> & _ & Hw & Hk & _).
    rewrite Ht. simpl. rewrite Hj by done. by rewrite Hw.
Qed.

End Runs.

(** *** Registration and the function that runs *)

Lemma flat_map_eq {A B} (f g : A → list B) (l : list A) :
  (∀ x, x ∈ l → f x = g x) → flat_map f l = flat_map g l.
Proof.
  induction l as [|x l IH]; intros Hfg; [done|]. simpl.
  rewrite (Hfg x) by left. rewrite IH; [done|].
  intros y Hy. apply Hfg. by right.
Qed.

Lemma exhausted_counter st c k :
  max_calls_of st c = Some (Some k) → exhausted st c = bool_decide (k ≤ 0).
Proof. unfold exhausted. by intros ->. Qed.

Lemma exhausted_unlimited st c :
  max_calls_of st c = Some None → exhausted st c = false.
Proof. unfold exhausted. by intros ->. Qed.

Lemma only_runner_kept st st' s w n :
  (∀ r, kind_of st' r = kind_of st r) →
  (∀ r, r ∈ rcv st' s → r ∈ rcv st s) →
  only_runner st s w n → only_runner st' s w n.
Proof.
  intros Hk Hsub Hone c Hc Hne. rewrite (code_of_kinds st) by done. auto.
Qed.


Lemma runs_count st args n w (l : list nat) :
  NoDup l → code_of st w = Some n →
  (∀ c, c ∈ l → c ≠ w → code_of st c ≠ Some n) →
  length (filter (λ m, m = n)
            (map (entry_of function_ran)
               (flat_map (λ c, call_runs st c args) l))) =
  if decide (w ∈ l) then if exhausted st w then 0%nat else 1%nat else 0%nat.
Proof.
  intros Hnd Hw. induction l as [|c l IH]; intros Hone; [done|].
  apply NoDup_cons in Hnd as [Hc Hnd].
  simpl flat_map. rewrite map_app, filter_app, length_app.
  rewrite IH; [|done|intros c' Hc'; apply Hone; by right].
  destruct (decide (c = w)) as [->|Hne].
  - rewrite (decide_True (P := w ∈ w :: l)) by left.
    rewrite (decide_False (P := w ∈ l)) by done.
    unfold call_runs. destruct (exhausted st w); [done|].
    pose proof (target_code st w args) as Ht. rewrite Hw in Ht.
    destruct (target st w args) as [[n' a']|]; [|done].
    injection Ht as ->. simpl. unfold entry_of, function_ran; simpl.
    rewrite filter_cons. by rewrite decide_True.
  - assert (Hnone : filter (λ m, m = n)
                      (map (entry_of function_ran) (call_runs st c args)) = []).
    { unfold call_runs. destruct (exhausted st c); [done|].
      pose proof (target_code st c args) as Ht.
      destruct (target st c args) as [[n' a']|]; [|done].
      simpl. unfold entry_of, function_ran; simpl. rewrite filter_cons.
      rewrite decide_False; [done|]. intros ->.
      apply (Hone c); [left|done|]. by rewrite <-Ht. }
    rewrite Hnone. simpl.
    destruct (decide (w ∈ l)).
    + by rewrite decide_True by (by right).
    + rewrite decide_False; [done|].
      intros [?|?]%elem_of_cons; congruence.
Qed.

(** *** Callbacks whose code is quiet *)

Section Quiet.
Variable body : nat → Args → M W unit.
Hypothesis body_quiet : quiet body.

Lemma invoke_quiet st c args :
  invocable st c = true →
  ∃ st', invoke body c args st = Ok tt st' ∧
    receivers st' = receivers st ∧ heap st' = heap st ∧
    times_called c st' = S (times_called c st) ∧
    ∀ r, r ≠ c → is_function st r = true →
         times_called r st' = times_called r st.
Proof.
  unfold invocable, invoke. intros Hi.
  destruct (kind_of st c) as [[[n|m]| |]|] eqn:Hc; try done.
  - unfold bind, log_call.
    destruct (body_quiet n args (set_calls (λ l, l ++ [(c, args)]) st))
      as [w ->].
    eexists. split; [done|]. simpl. repeat split.
    + rewrite times_called_with_world, times_called_log.
      by rewrite decide_True.
    + intros r Hr _. rewrite times_called_with_world, times_called_log.
      by rewrite decide_False.
  - destruct (kind_of st m) as [[|self f|]|] eqn:Hm; try done.
    destruct (kind_of st f) as [[[n|]| |]|] eqn:Hf; try done.
    unfold bind at 1. unfold log_call at 1. unfold invoke_method.
    unfold kind_of in *; simpl. rewrite Hm, Hf.
    unfold bind, log_call.
    destruct (body_quiet n (bind_self self args)
      (set_calls (λ l, l ++ [(m, args)])
         (set_calls (λ l, l ++ [(c, args)]) st))) as [w ->].
    eexists. split; [done|]. simpl.
    assert (m ≠ c) by (intros ->; congruence).
    repeat split.
    + rewrite times_called_with_world, !times_called_log.
      rewrite decide_False by done. by rewrite decide_True.
    + intros r Hr. unfold is_function, kind_of. intros Hfun.
      rewrite times_called_with_world, !times_called_log.
      rewrite (decide_False (P := c = r)) by done.
      rewrite decide_False; [done|]. intros ->. by rewrite Hm in Hfun.
Qed.

(** One iteration of the loop of [emit]. *)
Lemma _call_quiet st c args :
  invocable st c = true →
  ∃ st', _call body c args st = Ok tt st' ∧
    (∀ r, kind_of st' r = kind_of st r) ∧
    (∀ r, r ≠ c → untouched r st st') ∧
    served c st st'.
Proof.
  intros Hi.
  destruct (invocable_function _ _ Hi) as [k Hk].
  destruct (kind_function_heap _ _ _ Hk) as [a Ha].
  unfold _call, served. unfold bind at 1.
  rewrite (max_calls_of_function _ _ _ _ Ha).
  destruct (_max_calls a) as [[n|]|] eqn:Hmc.
  - (* limited *)
    unfold ret. rewrite (max_calls_of_function _ _ _ _ Ha), Hmc.
    destruct (decide (n ≤ 0)) as [Hn|Hn].
    + destruct (disconnect_spec c st) as (st' & -> & Hh & Hc & Hw & Hr).
      exists st'. split; [done|]. split; [|split; [|repeat split]].
      * intros r. unfold kind_of. by rewrite Hh.
      * intros r Hr'. repeat split.
        -- by rewrite Hh.
        -- rewrite Hr. set_solver.
        -- rewrite Hr. set_solver.
        -- intros _. unfold times_called. by rewrite Hc.
      * intros s. rewrite Hr. set_solver.
      * unfold times_called. by rewrite Hc.
      * rewrite (max_calls_of_heap st st'); [|unfold is_function; by rewrite Hk|by rewrite Hh].
        by rewrite (max_calls_of_function _ _ _ _ Ha).
    + unfold bind. rewrite (setattr_function _ _ _ _ _ Ha).
      set (st1 := set_heap _ st).
      assert (Hk1 : ∀ r, kind_of st1 r = kind_of st r)
        by (intros r; by apply kind_of_set_attrs with a).
      destruct (invoke_quiet st1 c args) as (st' & -> & Hrc & Hh & Htc & Hto).
      { by rewrite (invocable_kinds st). }
      exists st'. split; [done|]. split; [|split; [|repeat split]].
      * intros r. unfold kind_of. rewrite Hh. apply Hk1.
      * intros r Hr'. repeat split.
        -- rewrite Hh. simpl. by rewrite lookup_insert_ne.
        -- unfold rcv. by rewrite Hrc.
        -- unfold rcv. by rewrite Hrc.
        -- intros Hf. rewrite Hto; [done|done|].
           by rewrite (is_function_kinds st).
      * unfold rcv. by rewrite Hrc.
      * unfold rcv. by rewrite Hrc.
      * by rewrite Htc.
      * unfold max_calls_of, attrs_of. rewrite Hh. simpl.
        by rewrite lookup_insert_eq.
  - (* unlimited *)
    unfold ret. rewrite (max_calls_of_function _ _ _ _ Ha), Hmc.
    destruct (invoke_quiet st c args Hi) as (st' & -> & Hrc & Hh & Htc & Hto).
    exists st'. split; [done|]. split; [|split; [|repeat split]].
    * intros r. unfold kind_of. by rewrite Hh.
    * intros r Hr'. repeat split.
      -- by rewrite Hh.
      -- unfold rcv. by rewrite Hrc.
      -- unfold rcv. by rewrite Hrc.
      -- intros Hf. by rewrite Hto.
    * unfold rcv. by rewrite Hrc.
    * unfold rcv. by rewrite Hrc.
    * done.
    * rewrite (max_calls_of_heap st st'); [|unfold is_function; by rewrite Hk|by rewrite Hh].
      by rewrite (max_calls_of_function _ _ _ _ Ha).
  - (* no attribute yet *)
    rewrite (setattr_function _ _ _ _ _ Ha).
    set (st1 := set_heap _ st).
    assert (Hk1 : ∀ r, kind_of st1 r = kind_of st r)
      by (intros r; by apply kind_of_set_attrs with a).
    assert (Hm1 : max_calls_of st1 c = Some None).
    { unfold max_calls_of, attrs_of, st1. simpl. by rewrite lookup_insert_eq. }
    rewrite Hm1.
    destruct (invoke_quiet st1 c args) as (st' & -> & Hrc & Hh & Htc & Hto).
    { by rewrite (invocable_kinds st). }
    exists st'. split; [done|]. split; [|split; [|repeat split]].
    * intros r. unfold kind_of. rewrite Hh. apply Hk1.
    * intros r Hr'. repeat split.
      -- rewrite Hh. simpl. by rewrite lookup_insert_ne.
      -- unfold rcv. by rewrite Hrc.
      -- unfold rcv. by rewrite Hrc.
      -- intros Hf. rewrite Hto; [done|done|].
         by rewrite (is_function_kinds st).
    * unfold rcv. by rewrite Hrc.
    * unfold rcv. by rewrite Hrc.
    * by rewrite Htc.
    * rewrite (max_calls_of_heap st1 st'); [done| |by rewrite Hh].
      rewrite (is_function_kinds st) by done. unfold is_function. by rewrite Hk.
Qed.

(** The loop of [emit] over a snapshot. *)
Lemma dispatch_quiet args (l : list nat) : ∀ st,
  NoDup l → (∀ c, c ∈ l → invocable st c = true) →
  ∃ st', for_each l (λ c, _call body c args) st = Ok tt st' ∧
    (∀ r, kind_of st' r = kind_of st r) ∧
    (∀ r, r ∉ l → untouched r st st') ∧
    (∀ c, c ∈ l → served c st st').
Proof.
  induction l as [|c0 l IH]; intros st Hnd Hinv.
  - exists st. simpl. repeat split; try done. intros c Hc. by inversion Hc.
  - apply NoDup_cons in Hnd as [Hc0 Hnd].
    destruct (_call_quiet st c0 args) as (st1 & Hrun1 & Hk1 & Hu1 & Hs1).
    { apply Hinv. left. }
    destruct (IH st1 Hnd) as (st' & Hrun & Hk & Hu & Hs).
    { intros c Hc. rewrite (invocable_kinds st) by done. apply Hinv. by right. }
    exists st'. simpl. unfold bind at 1. rewrite Hrun1.
    split; [done|]. split; [|split].
    + intros r. by rewrite Hk, Hk1.
    + intros r Hr. apply not_elem_of_cons in Hr as [Hr0 Hr].
      apply untouched_trans with st1; auto.
    + intros c Hc.
      assert (Hfc : is_function st c = true).
      { destruct (invocable_function st c) as [k Hkc]; [by apply Hinv|].
        unfold is_function. by rewrite Hkc. }
      apply elem_of_cons in Hc as [->|Hc].
      * apply served_before with st1; auto.
        by rewrite (is_function_kinds st).
      * apply served_after with st1; auto.
        apply Hu1. intros ->. done.
Qed.

(** [emit] when every callback registered for the signal is quiet. *)
Lemma emit_quiet st s args :
  (∀ c, c ∈ rcv st s → invocable st c = true) →
  ∃ st', emit body s args st = Ok tt st' ∧
    (∀ r, kind_of st' r = kind_of st r) ∧
    (∀ r, r ∉ rcv st s → untouched r st st') ∧
    (∀ c, c ∈ rcv st s → served c st st').
Proof.
  intros Hinv.
  destruct (getitem_spec st s) as (st0 & Hget & Hh & Hc & Hw & Hr & _).
  assert (Hk0 : ∀ r, kind_of st0 r = kind_of st r)
    by (intros r; unfold kind_of; by rewrite Hh).
  destruct (dispatch_quiet args (iter_set (rcv st s)) st0)
    as (st' & Hrun & Hk & Hu & Hs).
  { rewrite iter_set_perm. apply NoDup_elements. }
  { intros c Hc'. rewrite (invocable_kinds st) by done. apply Hinv.
    rewrite iter_set_perm in Hc'. by apply elem_of_elements in Hc'. }
  exists st'. unfold emit, bind. rewrite Hget.
  split; [done|]. split; [|split].
  - intros r. by rewrite Hk, Hk0.
  - intros r Hr'. apply untouched_trans with st0; auto.
    + by apply untouched_same.
    + apply Hu. rewrite iter_set_perm. by rewrite elem_of_elements.
  - intros c Hc'. apply served_after with st0.
    + destruct (invocable_function st c) as [k Hkc]; [by apply Hinv|].
      unfold is_function. by rewrite Hkc.
    + by apply untouched_same.
    + apply Hs. rewrite iter_set_perm. by rewrite elem_of_elements.
Qed.

Lemma emit_quiet_wf st s args :
  wf st →
  ∃ st', emit body s args st = Ok tt st' ∧ wf st' ∧
    (∀ r, kind_of st' r = kind_of st r) ∧
    (∀ r, r ∉ rcv st s → untouched r st st') ∧
    (∀ c, c ∈ rcv st s → served c st st').
Proof.
  intros Hwf.
  destruct (emit_quiet st s args) as (st' & Hrun & Hk & Hu & Hs).
  { intros c Hc. by apply (Hwf s). }
  exists st'. split; [done|]. split; [|auto].
  intros s' c Hc. rewrite (invocable_kinds st) by done.
  apply (Hwf s'). destruct (decide (c ∈ rcv st s)) as [Hin|Hin].
  - specialize (Hs c Hin). unfold served in Hs.
    destruct (max_calls_of st c) as [[n|]|]; [case_decide|..];
      destruct Hs as (Hm & _);
      first [by apply Hm | by (exfalso; apply (Hm s'))].
  - destruct (Hu c Hin) as (_ & Hm & _). by apply Hm.
Qed.

(** The objects and registrations that an emission leaves: what is in a set
    afterwards was in it before. *)
Lemma emit_quiet_shrinks st st' s :
  (∀ r, r ∉ rcv st s → untouched r st st') →
  (∀ c, c ∈ rcv st s → served c st st') →
  ∀ s' r, r ∈ rcv st' s' → r ∈ rcv st s'.
Proof.
  intros Hu Hs s' r Hr. destruct (decide (r ∈ rcv st s)) as [Hin|Hin].
  - specialize (Hs r Hin). unfold served in Hs.
    destruct (max_calls_of st r) as [[n|]|]; [case_decide|..];
      destruct Hs as (Hm' & _);
      first [by apply Hm' | by (exfalso; apply (Hm' s'))].
  - destruct (Hu r Hin) as (_ & Hm' & _). by apply Hm'.
Qed.

(** *** What runs during an emission *)

Section Journal.
Context {E : Type}.
Variable log : W → list E.
Variable entry : nat → Args → E.
Hypothesis body_journal : keeps_journal log entry body.

Lemma dispatch_journal args (l : list nat) : ∀ st st',
  NoDup l → (∀ c, c ∈ l → invocable st c = true) →
  for_each l (λ c, _call body c args) st = Ok tt st' →
  log (world st') =
  log (world st) ++
    map (entry_of entry) (flat_map (λ c, call_runs st c args) l).
Proof.
  induction l as [|c0 l IH]; intros st st' Hnd Hinv Hrun.
  - injection Hrun as <-. simpl. by rewrite app_nil_r.
  - apply NoDup_cons in Hnd as [Hc0 Hnd].
    destruct (_call_quiet st c0 args) as (st1 & Hrun1 & Hk1 & Hu1 & _).
    { apply Hinv. left. }
    pose proof (_call_journal body log entry st c0 args) as Hj.
    rewrite Hrun1 in Hj. simpl in Hj.
    simpl in Hrun. unfold bind in Hrun. rewrite Hrun1 in Hrun.
    rewrite (IH st1 st' Hnd); [| |done].
    + rewrite Hj; [|intros; apply body_journal|apply Hinv; left].
      simpl flat_map. rewrite map_app, app_assoc. do 2 f_equal.
      apply flat_map_eq. intros c Hc.
      assert (Hne : c ≠ c0) by (intros ->; done).
      destruct (Hu1 c Hne) as (Hh & _).
      apply call_runs_same; [done| |done].
      apply invocable_is_function, Hinv. by right.
    + intros c Hc. rewrite (invocable_kinds st) by done. apply Hinv. by right.
Qed.

(** The journal grows by the runs of the emission, which the state at the
    start determines. *)
Lemma emit_journal st st' s args :
  (∀ c, c ∈ rcv st s → invocable st c = true) →
  emit body s args st = Ok tt st' →
  log (world st') = log (world st) ++ map (entry_of entry) (emit_runs st s args).
Proof.
  intros Hinv Hrun.
  destruct (getitem_spec st s) as (st0 & Hget & Hh & _ & Hw & _ & _).
  assert (Hk0 : ∀ r, kind_of st0 r = kind_of st r)
    by (intros r; unfold kind_of; by rewrite Hh).
  unfold emit, bind in Hrun. rewrite Hget in Hrun.
  assert (Hin : ∀ c, c ∈ iter_set (rcv st s) → invocable st c = true).
  { intros c Hc. apply Hinv. rewrite iter_set_perm in Hc.
    by apply elem_of_elements in Hc. }
  rewrite (dispatch_journal args (iter_set (rcv st s)) st0 st'); [| | |done].
  - rewrite Hw. unfold emit_runs. do 2 f_equal.
    apply flat_map_eq. intros c Hc.
    apply call_runs_same; [done| |by rewrite Hh].
    by apply invocable_is_function, Hin.
  - rewrite iter_set_perm. apply NoDup_elements.
  - intros c Hc. rewrite (invocable_kinds st) by done. by apply Hin.
Qed.

End Journal.

(** *** How many times a function runs *)

Section Tally.
Variable ran : W → list nat.
Hypothesis body_tally : keeps_journal ran function_ran body.

(** One emission in a well-formed registry, for a callback [w] that alone
    among the callbacks of the signal runs function [n]: the function runs
    once when [w] is registered for the signal with its counter not used
    up, and not at all otherwise. *)
Lemma emit_tally st s args w n :
  wf st → code_of st w = Some n → only_runner st s w n →
  ∃ st', emit body s args st = Ok tt st' ∧ wf st' ∧
    (∀ r, kind_of st' r = kind_of st r) ∧
    (∀ r, r ∉ rcv st s → untouched r st st') ∧
    (∀ c, c ∈ rcv st s → served c st st') ∧
    (∀ s' r, r ∈ rcv st' s' → r ∈ rcv st s') ∧
    code_of st' w = Some n ∧
    times_run ran n st' =
      (times_run ran n st +
       if decide (w ∈ rcv st s) then if exhausted st w then 0 else 1
       else 0)%nat.
Proof.
  intros Hwf Hw Hone.
  destruct (emit_quiet_wf st s args Hwf) as (st' & Hrun & Hwf' & Hk & Hu & Hs).
  exists st'. do 5 (split; [done|]).
  split; [by apply emit_quiet_shrinks with s|].
  split; [by rewrite (code_of_kinds st)|].
  unfold times_run.
  rewrite (emit_journal ran function_ran body_tally st st' s args);
    [|intros c Hc; by apply (Hwf s)|done].
  rewrite filter_app, length_app. f_equal. unfold emit_runs.
  rewrite (runs_count st args n w); [| |done|].
  - destruct (decide (w ∈ rcv st s)) as [Hin|Hin].
    + rewrite decide_True; [done|].
      rewrite iter_set_perm. by apply elem_of_elements.
    + rewrite decide_False; [done|].
      rewrite iter_set_perm. by rewrite elem_of_elements.
  - rewrite iter_set_perm. apply NoDup_elements.
  - intros c Hc. apply Hone. rewrite iter_set_perm in Hc.
    by apply elem_of_elements in Hc.
Qed.

(** The same for a callback that is registered for the signal, by the state
    of its counter. *)
Lemma emit_live st s args w n k :
  wf st → code_of st w = Some n → only_runner st s w n →
  w ∈ rcv st s → max_calls_of st w = Some (Some k) → 0 < k →
  ∃ st', emit body s args st = Ok tt st' ∧ wf st' ∧
    (∀ r, kind_of st' r = kind_of st r) ∧
    (∀ s' r, r ∈ rcv st' s' → r ∈ rcv st s') ∧
    (∀ s', w ∈ rcv st' s' ↔ w ∈ rcv st s') ∧
    times_called w st' = S (times_called w st) ∧
    max_calls_of st' w = Some (Some (k - 1)) ∧
    times_run ran n st' = S (times_run ran n st).
Proof.
  intros Hwf Hw Hone Hin Hmax Hk.
  destruct (emit_tally st s args w n Hwf Hw Hone)
    as (st' & Hrun & Hwf' & Hkd & _ & Hs & Hsub & _ & Ht).
  destruct (served_live _ _ _ _ (Hs w Hin) Hmax Hk) as (Hm & Htc & Hmax').
  exists st'. do 7 (split; [done|]).
  rewrite Ht, decide_True, (exhausted_counter _ _ _ Hmax) by done.
  rewrite bool_decide_eq_false_2 by lia. lia.
Qed.

Lemma emit_exhausted st s args w n k :
  wf st → code_of st w = Some n → only_runner st s w n →
  w ∈ rcv st s → max_calls_of st w = Some (Some k) → k ≤ 0 →
  ∃ st', emit body s args st = Ok tt st' ∧ wf st' ∧
    (∀ r, kind_of st' r = kind_of st r) ∧
    (∀ s' r, r ∈ rcv st' s' → r ∈ rcv st s') ∧
    (∀ s', w ∉ rcv st' s') ∧
    times_called w st' = times_called w st ∧
    max_calls_of st' w = Some (Some k) ∧
    times_run ran n st' = times_run ran n st.
Proof.
  intros Hwf Hw Hone Hin Hmax Hk.
  destruct (emit_tally st s args w n Hwf Hw Hone)
    as (st' & Hrun & Hwf' & Hkd & _ & Hs & Hsub & _ & Ht).
  destruct (served_exhausted _ _ _ _ (Hs w Hin) Hmax Hk) as (Hm & Htc & Hmax').
  exists st'. do 7 (split; [done|]).
  rewrite Ht, decide_True, (exhausted_counter _ _ _ Hmax) by done.
  rewrite bool_decide_eq_true_2 by lia. lia.
Qed.

Lemma emit_unlimited st s args w n :
  wf st → code_of st w = Some n → only_runner st s w n →
  w ∈ rcv st s → max_calls_of st w = Some None →
  ∃ st', emit body s args st = Ok tt st' ∧ wf st' ∧
    (∀ r, kind_of st' r = kind_of st r) ∧
    (∀ s' r, r ∈ rcv st' s' → r ∈ rcv st s') ∧
    (∀ s', w ∈ rcv st' s' ↔ w ∈ rcv st s') ∧
    times_called w st' = S (times_called w st) ∧
    max_calls_of st' w = Some None ∧
    times_run ran n st' = S (times_run ran n st).
Proof.
  intros Hwf Hw Hone Hin Hmax.
  destruct (emit_tally st s args w n Hwf Hw Hone)
    as (st' & Hrun & Hwf' & Hkd & _ & Hs & Hsub & _ & Ht).
  destruct (served_unlimited _ _ _ (Hs w Hin) Hmax) as (Hm & Htc & Hmax').
  exists st'. do 7 (split; [done|]).
  rewrite Ht, decide_True, (exhausted_unlimited _ _ Hmax) by done. lia.
Qed.






End Tally.

End Quiet.
(** *** Clearing *)

Lemma set_clear_spec st s :
  set_clear s st = Ok tt (set_receivers (insert s ∅) st).
Proof.
  unfold set_clear, bind, getitem, store, set_receivers.
  destruct (receivers st !! s); simpl; [done|]. by rewrite insert_insert_eq.
Qed.

Lemma clear_loop (l : list string) : ∀ st,
  ∃ st', for_each l set_clear st = Ok tt st' ∧
    heap st' = heap st ∧ calls st' = calls st ∧ world st' = world st ∧
    ∀ s, receivers st' !! s =
         if decide (s ∈ l) then Some ∅ else receivers st !! s.
Proof.
  induction l as [|s0 l IH]; intros st.
  - exists st. by repeat split.
  - simpl. unfold bind at 1. rewrite set_clear_spec.
    destruct (IH (set_receivers (insert s0 ∅) st))
      as (st' & -> & Hh & Hc & Hw & Hr).
    exists st'. repeat split; try done.
    intros s. rewrite Hr. simpl. rewrite lookup_insert.
    destruct (decide (s ∈ l)).
    + rewrite decide_True by (by right). done.
    + destruct (decide (s0 = s)) as [->|Hne].
      * rewrite decide_True by left. done.
      * rewrite decide_False; [done|].
        intros [?|?]%elem_of_cons; congruence.
Qed.

(** C8.  [clear('A')] empties the set of [A] and leaves the entry of any
    other signal [B] as it was; [clear()] without arguments empties the set
    of every signal and keeps the keys of the table.  Neither touches the
    callback objects. *)
Theorem clear_one_and_all st A B :
  A ≠ B →
  ∃ st1 st2,
    clear [A] st = Ok tt st1 ∧
    rcv st1 A = ∅ ∧
    receivers st1 !! B = receivers st !! B ∧
    heap st1 = heap st ∧
    clear [] st = Ok tt st2 ∧
    (∀ s, rcv st2 s = ∅) ∧
    dom (receivers st2) = dom (receivers st) ∧
    (∀ s, s ∈ dom (receivers st) → receivers st2 !! s = Some ∅) ∧
    heap st2 = heap st.
Proof.
  intros Hne.
  destruct (clear_loop [A] st) as (st1 & H1 & Hh1 & _ & _ & Hr1).
  destruct (clear_loop (iter_keys (dom (receivers st))) st)
    as (st2 & H2 & Hh2 & _ & _ & Hr2).
  assert (Hall : ∀ s, receivers st2 !! s = (λ _, ∅) <$> receivers st !! s).
  { intros s. rewrite Hr2. case_decide as Hs.
    - rewrite iter_keys_perm in Hs.
      apply elem_of_elements, elem_of_dom in Hs as [X ->]. done.
    - destruct (receivers st !! s) eqn:Hl; [|done].
      exfalso. apply Hs. rewrite iter_keys_perm.
      apply elem_of_elements, elem_of_dom. eauto. }
  exists st1, st2. unfold clear. repeat split; try done.
  - unfold rcv. rewrite Hr1, decide_True by left. done.
  - rewrite Hr1, decide_False; [done|].
    intros ->%list_elem_of_singleton. done.
  - intros s. unfold rcv. rewrite Hall.
    by destruct (receivers st !! s).
  - apply set_eq. intros s. rewrite !elem_of_dom, Hall.
    destruct (receivers st !! s); simpl; split; intros [? ?]; eauto; done.
  - intros s [X HX]%elem_of_dom. by rewrite Hall, HX.
Qed.

(** *** Values that are not callable *)

(** C9, amended.  [_on], where registration happens, raises
    [AssertionError] for every value that is not callable and leaves the
    state as it was, and so does [on] for every such value except [None] and
    integers.  These two [on] reads as "no callback given" and as
    [max_calls]: it returns the registrar without raising, nothing is
    registered, and the registrar raises when it is given the value. *)
Theorem non_callable_rejected st sigs v max :
  callable st v = false →
  _on sigs v max st = Err AssertionError st ∧
  match v with
  | VNone => on sigs v max st = Ok (Registrar sigs max) st
  | VInt n => on sigs v max st = Ok (Registrar sigs (Some n)) st
  | _ => on sigs v max st = Err AssertionError st
  end ∧
  ∀ sigs' max',
    apply_registrar (Registrar sigs' max') v st = Err AssertionError st.
Proof.
  intros Hc.
  assert (Hon : _on sigs v max st = Err AssertionError st).
  { unfold _on. destruct v; try done. by rewrite Hc. }
  split; [done|]. split.
  - destruct v as [| |str|r]; try done.
    unfold on.
    assert (is_method st (VRef r) = false) as ->.
    { unfold callable, is_method in *.
      by destruct (kind_of st r) as [[]|]. }
    unfold bind. by rewrite Hon.
  - intros sigs' max'. unfold apply_registrar, _on.
    destruct v; try done. by rewrite Hc.
Qed.

(** *** Bound methods *)

Lemma registry_functions_in_heap st s c :
  registry_functions st → c ∈ rcv st s → is_Some (heap st !! c).
Proof.
  intros Hrf Hc. specialize (Hrf s c Hc). unfold is_function, kind_of in Hrf.
  destruct (heap st !! c); [eauto|done].
Qed.

Lemma on_method st m self f sigs max :
  registry_functions st →
  kind_of st m = Some (KMethod self f) →
  ∃ w st',
    on sigs (VRef m) max st = Ok (Registered (VRef w)) st' ∧
    heap st !! w = None ∧
    heap st' =
      <[w := mkObj (KFunction (WrapperCode m))
               (mkAttrs (Some max) true true true true)]> (heap st) ∧
    calls st' = calls st ∧
    (∀ s, rcv st' s =
          if decide (s ∈ sig_list sigs) then {[w]} ∪ rcv st s else rcv st s) ∧
    registry_functions st' ∧
    kind_of st' m = Some (KMethod self f).
Proof.
  intros Hrf Hm.
  destruct (on_wrapper st m self f sigs max Hm)
    as (w & st' & Hon & Hw & Hh & Hc & Hr).
  assert (Hst : stable st st') by (by eapply stable_new_object).
  exists w, st'. repeat split; try done.
  - intros s c. rewrite Hr. intros Hc'.
    assert (c = w ∨ c ∈ rcv st s) as [->|Hin].
    { case_decide; [|by right].
      apply elem_of_union in Hc' as [->%elem_of_singleton|?]; auto. }
    + unfold is_function, kind_of. by rewrite Hh, lookup_insert_eq.
    + apply stable_is_function with st; [done|]. by apply (Hrf s).
  - by apply stable_kind with st.
Qed.

Lemma method_not_registered st m self f s :
  registry_functions st → kind_of st m = Some (KMethod self f) →
  m ∉ rcv st s.
Proof.
  intros Hrf Hm Hin. specialize (Hrf s m Hin).
  unfold is_function in Hrf. by rewrite Hm in Hrf.
Qed.

(** C10.  [on] given a bound method [m] registers a new function object
    [w] that calls [m], not [m] itself: afterwards [responds_to(m, s)] is
    false, and registering [m] a second time for the same signal adds a
    second, different wrapper, so that the set of the signal grows by two. *)
Theorem bound_method_wrapped st m self f sigs max s :
  registry_functions st →
  kind_of st m = Some (KMethod self f) →
  s ∈ sig_list sigs →
  ∃ w1 w2 st1 st2,
    on sigs (VRef m) max st = Ok (Registered (VRef w1)) st1 ∧
    heap st !! w1 = None ∧
    kind_of st1 w1 = Some (KFunction (WrapperCode m)) ∧
    w1 ∈ rcv st1 s ∧
    value_of (responds_to m s st1) = Some false ∧
    on sigs (VRef m) max st1 = Ok (Registered (VRef w2)) st2 ∧
    w1 ≠ w2 ∧
    rcv st2 s = {[w1; w2]} ∪ rcv st s ∧
    size (rcv st2 s) = S (S (size (rcv st s))) ∧
    value_of (responds_to m s st2) = Some false.
Proof.
  intros Hrf Hm Hs.
  destruct (on_method st m self f sigs max Hrf Hm)
    as (w1 & st1 & Hon1 & Hw1 & Hh1 & _ & Hr1 & Hrf1 & Hm1).
  destruct (on_method st1 m self f sigs max Hrf1 Hm1)
    as (w2 & st2 & Hon2 & Hw2 & Hh2 & _ & Hr2 & Hrf2 & Hm2).
  assert (Hne : w1 ≠ w2).
  { intros <-. by rewrite Hh1, lookup_insert_eq in Hw2. }
  assert (Hfresh : ∀ w, heap st !! w = None → w ∉ rcv st s).
  { intros w Hw Hin.
    destruct (registry_functions_in_heap _ _ _ Hrf Hin). congruence. }
  assert (Hw2' : heap st !! w2 = None).
  { rewrite Hh1, lookup_insert_ne in Hw2; done. }
  assert (Hset : rcv st2 s = {[w1; w2]} ∪ rcv st s).
  { rewrite Hr2, Hr1, !decide_True by done. set_solver. }
  exists w1, w2, st1, st2. repeat split; try done.
  - unfold kind_of. by rewrite Hh1, lookup_insert_eq.
  - rewrite Hr1, decide_True by done. set_solver.
  - rewrite responds_to_value, bool_decide_eq_false_2; [done|].
    by apply method_not_registered with self f.
  - rewrite Hset, size_union.
    + rewrite size_union, !size_singleton; [done|].
      by apply disjoint_singleton_l, not_elem_of_singleton.
    + apply disjoint_union_l. split; apply disjoint_singleton_l; auto.
  - rewrite responds_to_value, bool_decide_eq_false_2; [done|].
    by apply method_not_registered with self f.
Qed.

Section Dispatch.
Variable body : nat → Args → M W unit.

(** *** Exceptions *)

Lemma for_each_raise {A} (f : A → M W unit) (l1 : list A) x l2 e :
  ∀ st st1 st2,
  for_each l1 f st = Ok tt st1 → f x st1 = Err e st2 →
  for_each (l1 ++ x :: l2) f st = Err e st2.
Proof.
  induction l1 as [|y l1 IH]; intros st st1 st2 H1 H2; simpl in *.
  - injection H1 as ->. unfold bind. by rewrite H2.
  - unfold bind in *. destruct (f y st) as [[] st'|e' st']; [|done].
    by apply IH with st1.
Qed.

(** C7.  A callback [c] of the snapshot is reached in the loop of [emit]
    after the callbacks [l1] before it returned normally; it is due to be
    called (its counter is not used up), and its function [n] raises [e]
    when it runs with the arguments [a] that the call hands it, on the
    registry table and the user state that the callbacks before it left.
    Then [_call] raises [e] and so does [emit], in the very state in which
    the function raised: nothing runs after it, and the callbacks [l2] that
    come after [c] in the snapshot are not called. *)
Theorem emit_callback_exception st s args l1 c l2 st0 st1 n a e :
  getitem s st = Ok (rcv st s) st0 →
  iter_set (rcv st s) = l1 ++ c :: l2 →
  for_each l1 (λ cb, _call body cb args) st0 = Ok tt st1 →
  is_function st1 c = true → exhausted st1 c = false →
  target st1 c args = Some (n, a) →
  (∀ stc, receivers stc = receivers st1 → world stc = world st1 →
     ∃ st2, body n a stc = Err e st2) →
  ∃ stc st2,
    receivers stc = receivers st1 ∧ world stc = world st1 ∧
    body n a stc = Err e st2 ∧
    _call body c args st1 = Err e st2 ∧
    emit body s args st = Err e st2.
Proof.
  intros Hget Hl Hrun Hf Hex Ht Hraise.
  destruct (_call_run body st1 c args n a Hf Hex Ht)
    as (stc & Hcall & Hr & Hw & _).
  destruct (Hraise stc Hr Hw) as (st2 & Hbody).
  exists stc, st2. do 3 (split; [done|]).
  assert (Hc : _call body c args st1 = Err e st2) by congruence.
  split; [done|]. unfold emit, bind. rewrite Hget, Hl.
  by apply for_each_raise with st1.
Qed.

(** *** Scoped emission *)


(** *** Emission while callbacks change the table *)

Section Snapshot.
Variable st0 : State W.
Variable X : gset nat.
Context {E : Type}.
Variable log : W → list E.
Variable entry : nat → Args → E.
Hypothesis body_alone : leaves_alone st0 X log entry body.
Hypothesis X_invocable : ∀ c, c ∈ X → invocable st0 c = true.

Lemma invoke_alone st c args :
  stable st0 st → c ∈ X →
  ∃ st', invoke body c args st = Ok tt st' ∧
    stable st0 st' ∧
    (∀ r, r ∈ X → heap st' !! r = heap st !! r) ∧
    times_called c st' = S (times_called c st) ∧
    ∀ r, r ≠ c → is_function st0 r = true →
         times_called r st' = times_called r st.
Proof.
  intros Hst Hc.
  pose proof (stable_invocable _ _ _ Hst (X_invocable c Hc)) as Hi.
  unfold invocable in Hi. unfold invoke.
  destruct (kind_of st c) as [[[n|m]| |]|] eqn:Hkc; try done.
  - unfold bind, log_call.
    set (st1 := set_calls _ st).
    destruct (body_alone n args st1) as (st' & -> & Hcl & _ & Hst' & Hh).
    { by apply stable_kinds with st. }
    exists st'. split; [done|]. split; [done|]. split; [done|]. split.
    + unfold times_called at 1. rewrite Hcl.
      fold (times_called c st1). unfold st1.
      by rewrite times_called_log, decide_True.
    + intros r Hr _. unfold times_called at 1. rewrite Hcl.
      fold (times_called r st1). unfold st1.
      by rewrite times_called_log, decide_False.
  - destruct (kind_of st m) as [[|self f|]|] eqn:Hm; try done.
    destruct (kind_of st f) as [[[n|]| |]|] eqn:Hf; try done.
    unfold bind at 1. unfold log_call at 1. unfold invoke_method.
    unfold kind_of in *; simpl. rewrite Hm, Hf.
    unfold bind, log_call.
    set (st1 := set_calls _ (set_calls _ st)).
    destruct (body_alone n (bind_self self args) st1)
      as (st' & -> & Hcl & _ & Hst' & Hh).
    { by apply stable_kinds with st. }
    assert (m ≠ c) by (intros ->; congruence).
    exists st'. split; [done|]. split; [done|]. split; [done|]. split.
    + unfold times_called at 1. rewrite Hcl.
      fold (times_called c st1). unfold st1.
      rewrite !times_called_log.
      rewrite decide_False by done. by rewrite decide_True.
    + intros r Hr Hfun. unfold times_called at 1. rewrite Hcl.
      fold (times_called r st1). unfold st1.
      rewrite !times_called_log.
      rewrite (decide_False (P := c = r)) by done.
      rewrite decide_False; [done|]. intros ->.
      apply (stable_is_function _ _ _ Hst) in Hfun.
      unfold is_function, kind_of in Hfun. by rewrite Hm in Hfun.
Qed.

Lemma _call_alone st c args :
  stable st0 st → c ∈ X →
  ∃ st', _call body c args st = Ok tt st' ∧
    stable st0 st' ∧
    (∀ r, r ∈ X → r ≠ c → heap st' !! r = heap st !! r) ∧
    times_called c st' =
      (times_called c st + if exhausted st c then 0 else 1)%nat ∧
    ∀ r, r ≠ c → is_function st0 r = true →
         times_called r st' = times_called r st.
Proof.
  intros Hst Hc.
  pose proof (stable_invocable _ _ _ Hst (X_invocable c Hc)) as Hi.
  destruct (invocable_heap _ _ Hi) as (k & a & Ha).
  unfold _call, exhausted. unfold bind at 1.
  rewrite (max_calls_of_function _ _ _ _ Ha).
  destruct (_max_calls a) as [[n|]|] eqn:Hmc.
  - unfold ret. rewrite (max_calls_of_function _ _ _ _ Ha), Hmc.
    destruct (decide (n ≤ 0)) as [Hn|Hn].
    + rewrite bool_decide_eq_true_2 by done.
      destruct (disconnect_spec c st) as (st' & -> & Hh & Hcl & _ & _).
      exists st'. split; [done|]. split; [|split; [|split]].
      * apply stable_kinds with st; [|done].
        intros r. unfold kind_of. by rewrite Hh.
      * intros r _ _. by rewrite Hh.
      * unfold times_called. rewrite Hcl. lia.
      * intros r _ _. unfold times_called. by rewrite Hcl.
    + rewrite bool_decide_eq_false_2 by done.
      unfold bind. rewrite (setattr_function _ _ _ _ _ Ha).
      set (st1 := set_heap _ st).
      assert (Hk1 : ∀ r, kind_of st1 r = kind_of st r)
        by (intros r; by apply kind_of_set_attrs with a).
      destruct (invoke_alone st1 c args) as (st' & -> & Hst' & Hh & Htc & Hto);
        [by apply stable_kinds with st|done|].
      exists st'. split; [done|]. split; [done|]. split; [|split].
      * intros r Hr Hne. rewrite Hh by done. unfold st1; simpl.
        by rewrite lookup_insert_ne.
      * rewrite Htc. unfold times_called, st1; simpl. lia.
      * intros r Hne Hf. by rewrite Hto.
  - unfold ret. rewrite (max_calls_of_function _ _ _ _ Ha), Hmc.
    destruct (invoke_alone st c args) as (st' & -> & Hst' & Hh & Htc & Hto);
      [done..|].
    exists st'. split; [done|]. split; [done|]. split; [|split].
    + intros r Hr _. by apply Hh.
    + rewrite Htc. lia.
    + done.
  - rewrite (setattr_function _ _ _ _ _ Ha).
    set (st1 := set_heap _ st).
    assert (Hk1 : ∀ r, kind_of st1 r = kind_of st r)
      by (intros r; by apply kind_of_set_attrs with a).
    assert (Hm1 : max_calls_of st1 c = Some None).
    { unfold max_calls_of, attrs_of, st1. simpl. by rewrite lookup_insert_eq. }
    rewrite Hm1.
    destruct (invoke_alone st1 c args) as (st' & -> & Hst' & Hh & Htc & Hto);
      [by apply stable_kinds with st|done|].
    exists st'. split; [done|]. split; [done|]. split; [|split].
    + intros r Hr Hne. rewrite Hh by done. unfold st1; simpl.
      by rewrite lookup_insert_ne.
    + rewrite Htc. unfold times_called, st1; simpl. lia.
    + intros r Hne Hf. by rewrite Hto.
Qed.

Lemma stable_refl : stable st0 st0.
Proof. by intros r _. Qed.

(** The loop of [emit] over a snapshot taken from [X]. *)
Lemma dispatch_alone args (l : list nat) : ∀ st,
  NoDup l → (∀ c, c ∈ l → c ∈ X) → stable st0 st →
  ∃ st', for_each l (λ c, _call body c args) st = Ok tt st' ∧
    stable st0 st' ∧
    (∀ r, r ∈ X → r ∉ l → heap st' !! r = heap st !! r) ∧
    (∀ c, c ∈ l →
       times_called c st' =
       (times_called c st + if exhausted st c then 0 else 1)%nat) ∧
    (∀ r, r ∉ l → is_function st0 r = true →
       times_called r st' = times_called r st).
Proof.
  induction l as [|c0 l IH]; intros st Hnd HX Hst.
  - exists st. simpl. repeat split; try done. intros c Hc. by inversion Hc.
  - apply NoDup_cons in Hnd as [Hc0 Hnd].
    assert (Hc0X : c0 ∈ X) by (apply HX; left).
    destruct (_call_alone st c0 args Hst Hc0X)
      as (st1 & Hrun1 & Hst1 & Hh1 & Ht1 & Hto1).
    destruct (IH st1 Hnd) as (st' & Hrun & Hst' & Hh & Ht & Hto);
      [intros c Hc; apply HX; by right|done|].
    assert (Hfun : ∀ c, c ∈ X → is_function st0 c = true).
    { intros c Hc. destruct (invocable_function _ _ (X_invocable c Hc)) as [k Hk].
      unfold is_function. by rewrite Hk. }
    exists st'. simpl. unfold bind at 1. rewrite Hrun1.
    split; [done|]. split; [done|]. split; [|split].
    + intros r Hr [Hne Hnl]%not_elem_of_cons.
      rewrite Hh, Hh1; done.
    + intros c [->|Hc]%elem_of_cons.
      * rewrite Hto, Ht1; auto.
      * assert (Hne : c ≠ c0) by (intros ->; done).
        assert (HcX : c ∈ X) by (apply HX; by right).
        rewrite Ht by done. rewrite Hto1 by auto.
        rewrite (exhausted_heap st st1); auto.
        apply stable_is_function with st0; auto.
    + intros r [Hne Hnl]%not_elem_of_cons Hf.
      rewrite Hto, Hto1; auto.
Qed.

Lemma call_runs_stable st st1 c args :
  stable st0 st → stable st0 st1 → invocable st0 c = true →
  heap st1 !! c = heap st !! c →
  call_runs st1 c args = call_runs st c args.
Proof.
  intros Hst Hst1 Hi Hh. unfold call_runs.
  rewrite (exhausted_heap st st1);
    [|by apply invocable_is_function, stable_invocable with st0|done].
  by rewrite (stable_target st0 st1), (stable_target st0 st).
Qed.

(** The journal over the loop of [emit]. *)
Lemma dispatch_alone_journal args (l : list nat) : ∀ st st',
  NoDup l → (∀ c, c ∈ l → c ∈ X) → stable st0 st →
  for_each l (λ c, _call body c args) st = Ok tt st' →
  log (world st') =
  log (world st) ++
    map (entry_of entry) (flat_map (λ c, call_runs st c args) l).
Proof.
  induction l as [|c0 l IH]; intros st st' Hnd HX Hst Hrun.
  - injection Hrun as <-. simpl. by rewrite app_nil_r.
  - apply NoDup_cons in Hnd as [Hc0 Hnd].
    assert (Hc0X : c0 ∈ X) by (apply HX; left).
    destruct (_call_alone st c0 args Hst Hc0X)
      as (st1 & Hrun1 & Hst1 & Hh1 & _).
    pose proof (_call_journal body log entry st c0 args) as Hj.
    rewrite Hrun1 in Hj. simpl in Hj.
    simpl in Hrun. unfold bind in Hrun. rewrite Hrun1 in Hrun.
    rewrite (IH st1 st' Hnd); [| |done|done].
    + rewrite Hj.
      * simpl flat_map. rewrite map_app, app_assoc. do 2 f_equal.
        apply flat_map_eq. intros c Hc.
        assert (Hne : c ≠ c0) by (intros ->; done).
        assert (HcX : c ∈ X) by (apply HX; by right).
        apply call_runs_stable; auto.
      * intros n a stc Hk.
        destruct (body_alone n a stc) as (st2 & -> & _ & Hlog & _).
        { by apply stable_kinds with st. }
        done.
      * apply stable_invocable with st0; auto.
    + intros c Hc. apply HX. by right.
Qed.

(** C5, amended.  The callbacks [X] in the set of the signal when [emit]
    starts are user functions or wrappers of bound methods.  User code may
    do anything to the table meanwhile - register, disconnect, clear -
    as long as it returns normally, runs no callback itself, keeps the
    objects what they are and leaves the objects of the callbacks in [X],
    with their counters, alone.  Then [emit] returns normally, and what ran
    during the emission is fixed by the state at its start: the function of
    each callback of the snapshot whose counter was not used up, once, with
    the arguments of the emission, in the order of the snapshot.  In terms
    of the call log, each of these callbacks was called once and no function
    object outside of the snapshot was called. *)
Theorem emit_snapshot s args :
  X = rcv st0 s →
  ∃ st', emit body s args st0 = Ok tt st' ∧
    log (world st') =
      log (world st0) ++ map (entry_of entry) (emit_runs st0 s args) ∧
    (∀ c, c ∈ X →
       times_called c st' =
       (times_called c st0 + if exhausted st0 c then 0 else 1)%nat) ∧
    (∀ r, r ∉ X → is_function st0 r = true →
       times_called r st' = times_called r st0).
Proof.
  intros HX.
  destruct (getitem_spec st0 s) as (st00 & Hget & Hh & Hc & Hw & _ & _).
  assert (Hst00 : stable st0 st00).
  { apply stable_kinds with st0; [|apply stable_refl].
    intros r. unfold kind_of. by rewrite Hh. }
  assert (HinX : ∀ c, c ∈ iter_set (rcv st0 s) → c ∈ X).
  { intros c Hc'. rewrite iter_set_perm in Hc'.
    apply elem_of_elements in Hc'. by rewrite HX. }
  assert (Hnd : NoDup (iter_set (rcv st0 s)))
    by (rewrite iter_set_perm; apply NoDup_elements).
  destruct (dispatch_alone args (iter_set (rcv st0 s)) st00 Hnd HinX Hst00)
    as (st' & Hrun & _ & _ & Ht & Hto).
  exists st'. unfold emit, bind. rewrite Hget. split; [done|]. split; [|split].
  - rewrite (dispatch_alone_journal args _ st00 st' Hnd HinX Hst00 Hrun).
    rewrite Hw. unfold emit_runs. do 2 f_equal.
    apply flat_map_eq. intros c Hc'.
    apply call_runs_stable; [apply stable_refl|done|auto|by rewrite Hh].
  - intros c HcX.
    assert (Hin : c ∈ iter_set (rcv st0 s))
      by (rewrite iter_set_perm; apply elem_of_elements; by rewrite <-HX).
    rewrite (Ht c Hin). unfold times_called at 1. rewrite Hc.
    rewrite (exhausted_heap st0 st00); [done| |by rewrite Hh].
    destruct (invocable_function _ _ (X_invocable c HcX)) as [k Hk].
    unfold is_function. by rewrite Hk.
  - intros r Hr Hf. rewrite Hto; [|rewrite iter_set_perm, elem_of_elements; by rewrite <-HX|done].
    unfold times_called. by rewrite Hc.
Qed.

End Snapshot.

End Dispatch.

End Properties.
(** ** The small program: instances of the theorems *)

Lemma demo_body_quiet : quiet demo_body.
Proof. intros n a st. by exists (world st ++ [n]). Qed.

Lemma demo_body_tally : keeps_journal id function_ran demo_body.
Proof. by intros n a st. Qed.

Lemma demo_st_wf : wf demo_st.
Proof. intros s c Hc. unfold rcv in Hc. simpl in Hc. set_solver. Qed.



Lemma state_of_ok {W A} (r : Res W A) a st : r = Ok a st → state_of r = st.
Proof. by intros ->. Qed.

Lemma registered_st_wf : wf registered_st.
Proof.
  destruct (on_invocable demo_st 1 (OneSignal "S") (Some 3) demo_st_wf)
    as (st' & Hon & Hwf & _); [done|].
  unfold registered_st. by rewrite (state_of_ok _ _ _ Hon).
Qed.



(** The run of the witness above: one mark in all. *)
Example once_two_emissions_run :
  world (state_of ((once (OneSignal "S") (VRef 1) ;;;
                    emit demo_body "S" no_args ;;;
                    emit demo_body "S" no_args) demo_st)) = [1%nat].
Proof. vm_compute. reflexivity. Qed.



(** The example of the specification, run: the function [1] registered with
    [max_calls=2] for ['tick'], three emissions. *)
Example tick_three_times :
  let run := on (OneSignal "tick") (VRef 1) (Some 2) ;;;
             emit demo_body "tick" no_args ;;;
             emit demo_body "tick" no_args ;;;
             emit demo_body "tick" no_args in
  times_called 1 (state_of (run demo_st)) = 2%nat ∧
  world (state_of (run demo_st)) = [1; 1]%nat ∧
  value_of ((run ;;; responds_to 1 "tick") demo_st) = Some false.
Proof. vm_compute. done. Qed.


Lemma registered_st_only_runner : only_runner registered_st "S" 1 1.
Proof.
  intros c' Hc' Hne.
  assert (Hset : rcv registered_st "S" = {[1%nat]}) by (vm_compute; reflexivity).
  rewrite Hset in Hc'. apply elem_of_singleton in Hc'. done.
Qed.






(** A callback registered for two signals by one call of [on], run: one
    call in all, by the emission of ["A"]; the emission of ["B"] removes the
    callback from ["A"] as well. *)
Example shared_counter_run :
  let run := on (ManySignals ["A"; "B"]) (VRef 1) (Some 1) ;;;
             emit demo_body "A" no_args ;;;
             emit demo_body "B" no_args in
  times_called 1 (state_of (run demo_st)) = 1%nat ∧
  world (state_of (run demo_st)) = [1%nat] ∧
  value_of ((run ;;; responds_to 1 "A") demo_st) = Some false ∧
  value_of ((run ;;; responds_to 1 "B") demo_st) = Some false.
Proof. vm_compute. done. Qed.

(** C5, as stated, fails: callbacks [1] and [2] are registered for ["S"]
    without a limit, and the emission goes to [2] first.  When the code of
    either registers the other for another signal with [max_calls=0], the
    emission under way calls [2] and then disconnects [1] without calling
    it; when their code registers nothing, it calls both. *)
Lemma registration_changes_current_pass :
  rcv snap_st "S" = {[1%nat; 2%nat]} ∧
  iter_set (rcv snap_st "S") = [2%nat; 1%nat] ∧
  times_called 2 (state_of (emit registering_body "S" no_args snap_st)) = 1%nat ∧
  times_called 1 (state_of (emit registering_body "S" no_args snap_st)) = 0%nat ∧
  times_called 2 (state_of (emit demo_body "S" no_args snap_st)) = 1%nat ∧
  times_called 1 (state_of (emit demo_body "S" no_args snap_st)) = 1%nat ∧
  world (state_of (emit registering_body "S" no_args snap_st)) = [2%nat] ∧
  world (state_of (emit demo_body "S" no_args snap_st)) = [2; 1]%nat.
Proof. vm_compute. done. Qed.

(** The same holds in whichever order the set is gone through: one of the
    two callbacks of the snapshot is not called. *)
Lemma registration_changes_pass_in_any_order `{IterOrder} :
  let st' := state_of (emit registering_body "S" no_args snap_st) in
  (times_called 1 st' + times_called 2 st' = 1)%nat.
Proof.
  assert (Hget : getitem "S" snap_st = Ok {[1%nat; 2%nat]} snap_st)
    by (vm_compute; reflexivity).
  assert (Hel : elements ({[1%nat; 2%nat]} : gset nat) = [2%nat; 1%nat])
    by (vm_compute; reflexivity).
  pose proof (iter_set_perm {[1%nat; 2%nat]}) as Hp. rewrite Hel in Hp.
  symmetry in Hp. apply Permutation_length_2_inv in Hp.
  unfold emit, bind. rewrite Hget.
  assert (Hrun : ∀ a b : nat,
    (a = 1%nat ∧ b = 2%nat) ∨ (a = 2%nat ∧ b = 1%nat) →
    ∃ st2 st3,
      _call registering_body a no_args snap_st = Ok tt st2 ∧
      _call registering_body b no_args st2 = Ok tt st3 ∧
      times_called a st3 = 1%nat ∧ times_called b st3 = 0%nat).
  { intros a b Hab.
    set (st2 := state_of
      (@_call _ elements_order registering_body a no_args snap_st)).
    assert (H2 : _call registering_body a no_args snap_st = Ok tt st2)
      by (destruct Hab as [[-> ->]|[-> ->]]; vm_compute; reflexivity).
    assert (H1 : _call registering_body b no_args st2 = disconnect b st2)
      by (destruct Hab as [[-> ->]|[-> ->]]; vm_compute; reflexivity).
    destruct (disconnect_spec b st2) as (st3 & Hd & _ & Hc & _).
    exists st2, st3. rewrite H1. do 2 (split; [done|]).
    unfold times_called. rewrite Hc.
    destruct Hab as [[-> ->]|[-> ->]]; vm_compute; done. }
  destruct Hp as [-> | ->]; simpl for_each; unfold bind.
  - destruct (Hrun 2%nat 1%nat) as (st2 & st3 & -> & -> & Ha & Hb); [auto|].
    simpl. lia.
  - destruct (Hrun 1%nat 2%nat) as (st2 & st3 & -> & -> & Ha & Hb); [auto|].
    simpl. lia.
Qed.

Lemma mark_stable (st0 st : State (list nat)) n :
  stable st0 st → stable st0 (with_world (world st ++ [n]) st).
Proof. intros Hst r Hr. by apply Hst. Qed.

Lemma mutating_body_leaves_alone :
  leaves_alone snap_st {[1%nat; 2%nat]} id function_ran mutating_body.
Proof.
  intros n a st Hst. unfold mutating_body.
  destruct n as [|[|[|n]]].
  - eexists. split; [done|]. simpl. split; [done|]. split; [done|].
    split; [|done]. by apply mark_stable.
  - assert (Hk3 : kind_of st 3 = Some (KFunction (UserCode 3))).
    { rewrite Hst; [done|]. by eexists. }
    destruct (kind_function_heap _ _ _ Hk3) as [a3 Ha3].
    destruct (_on_function st 3 _ a3 (OneSignal "S") None Ha3)
      as (st1 & Hrun1 & Hh1 & Hc1 & Hw1 & _).
    destruct (clear_loop ["S"] st1) as (st2 & Hrun2 & Hh2 & Hc2 & Hw2 & _).
    unfold bind. rewrite (on_function _ _ _ _ _ _ Ha3), Hrun1.
    change (clear ["S"] st1) with (for_each ["S"] set_clear st1).
    rewrite Hrun2.
    eexists. split; [done|]. simpl. split; [congruence|].
    split; [by rewrite Hw2, Hw1|]. split.
    + apply mark_stable. apply stable_kinds with st; [|done].
      intros r. unfold kind_of. rewrite Hh2.
      by apply kinds_put_attrs with 3%nat (UserCode 3) a3
           (mkAttrs (Some None) true true true true).
    + intros c Hc. rewrite Hh2, Hh1. apply lookup_insert_ne.
      intros <-. set_solver.
  - destruct (disconnect_spec 2 st) as (st1 & Hrun1 & Hh1 & Hc1 & Hw1 & _).
    unfold bind. rewrite Hrun1.
    eexists. split; [done|]. simpl. split; [done|].
    split; [by rewrite Hw1|]. split.
    + apply mark_stable. apply stable_kinds with st; [|done].
      intros r. unfold kind_of. by rewrite Hh1.
    + intros c _. by rewrite Hh1.
  - eexists. split; [done|]. simpl. split; [done|]. split; [done|].
    split; [|done]. by apply mark_stable.
Qed.

Lemma snap_st_invocable c :
  c ∈ ({[1%nat; 2%nat]} : gset nat) → invocable snap_st c = true.
Proof.
  intros [->%elem_of_singleton| ->%elem_of_singleton]%elem_of_union; done.
Qed.

Lemma emit_snapshot_witness :
  leaves_alone snap_st {[1%nat; 2%nat]} id function_ran mutating_body ∧
  (∀ c, c ∈ ({[1%nat; 2%nat]} : gset nat) → invocable snap_st c = true) ∧
  {[1%nat; 2%nat]} = rcv snap_st "S" ∧
  ∃ st', emit mutating_body "S" no_args snap_st = Ok tt st' ∧
    id (world st') =
      id (world snap_st) ++
        map (entry_of function_ran) (emit_runs snap_st "S" no_args) ∧
    (∀ c, c ∈ ({[1%nat; 2%nat]} : gset nat) →
       times_called c st' =
       (times_called c snap_st + if exhausted snap_st c then 0 else 1)%nat) ∧
    (∀ r, r ∉ ({[1%nat; 2%nat]} : gset nat) → is_function snap_st r = true →
       times_called r st' = times_called r snap_st).
Proof.
  assert (HX : {[1%nat; 2%nat]} = rcv snap_st "S")
    by (vm_compute; reflexivity).
  split; [exact mutating_body_leaves_alone|].
  split; [exact snap_st_invocable|]. split; [exact HX|].
  exact (emit_snapshot mutating_body snap_st {[1%nat; 2%nat]} id function_ran
           mutating_body_leaves_alone snap_st_invocable "S" no_args HX).
Defined.

(** The run of the witness above: callback [2] disconnects itself, callback
    [1] registers callback [3] for the signal and clears the signal, and
    the emission under way runs [2] and [1], the snapshot, and not [3]. *)
Example emit_snapshot_run :
  emit_runs snap_st "S" no_args = [(2%nat, no_args); (1%nat, no_args)] ∧
  world (state_of (emit mutating_body "S" no_args snap_st)) = [2; 1]%nat ∧
  rcv (state_of (emit mutating_body "S" no_args snap_st)) "S" = ∅.
Proof. vm_compute. done. Qed.


(** The run of the witness above: the callback of ["enter"] leaves its mark
    before the block, the callback of ["exit"] after it, and the exception
    of the block is what comes out. *)
Example emitting_around_failing_block :
  match emitting demo_body "exit" (Some "enter") failing_block scoped_st with
  | Err e st => e = UserError 100 ∧ world st = [1; 100; 2]%nat ∧
                (calls st).*1 = [1; 2]%nat
  | Ok _ _ => False
  end.
Proof. vm_compute. done. Qed.


(** In [three_st] the emission of ["S"] goes to [2], [3] and [1] in this
    order, and with [failing_body] the function [3] raises. *)
Lemma emit_callback_exception_witness :
  let st1 := state_of (for_each [2%nat]
                         (λ cb, _call failing_body cb no_args) three_st) in
  getitem "S" three_st = Ok (rcv three_st "S") three_st ∧
  iter_set (rcv three_st "S") = [2%nat] ++ 3%nat :: [1%nat] ∧
  for_each [2%nat] (λ cb, _call failing_body cb no_args) three_st = Ok tt st1 ∧
  is_function st1 3 = true ∧ exhausted st1 3 = false ∧
  target st1 3 no_args = Some (3%nat, no_args) ∧
  (∀ stc, receivers stc = receivers st1 → world stc = world st1 →
     ∃ st2, failing_body 3 no_args stc = Err (UserError 3) st2) ∧
  ∃ stc st2,
    receivers stc = receivers st1 ∧ world stc = world st1 ∧
    failing_body 3 no_args stc = Err (UserError 3) st2 ∧
    _call failing_body 3 no_args st1 = Err (UserError 3) st2 ∧
    emit failing_body "S" no_args three_st = Err (UserError 3) st2.
Proof.
  intros st1.
  assert (H1 : getitem "S" three_st = Ok (rcv three_st "S") three_st)
    by (vm_compute; reflexivity).
  assert (H2 : iter_set (rcv three_st "S") = [2%nat] ++ 3%nat :: [1%nat])
    by (vm_compute; reflexivity).
  assert (H3 : for_each [2%nat] (λ cb, _call failing_body cb no_args) three_st
               = Ok tt st1) by (vm_compute; reflexivity).
  assert (H4 : is_function st1 3 = true) by (vm_compute; reflexivity).
  assert (H5 : exhausted st1 3 = false) by (vm_compute; reflexivity).
  assert (H6 : target st1 3 no_args = Some (3%nat, no_args))
    by (vm_compute; reflexivity).
  assert (H7 : ∀ stc : State (list nat),
    receivers stc = receivers st1 → world stc = world st1 →
    ∃ st2, failing_body 3 no_args stc = Err (UserError 3) st2).
  { intros stc _ _. eexists. reflexivity. }
  split; [exact H1|]. split; [exact H2|]. split; [exact H3|].
  split; [exact H4|]. split; [exact H5|]. split; [exact H6|].
  split; [exact H7|].
  exact (emit_callback_exception failing_body three_st "S" no_args
           [2%nat] 3 [1%nat] three_st st1 3 no_args (UserError 3)
           H1 H2 H3 H4 H5 H6 H7).
Defined.

(** The run of the witness above: [2] and [3] have left their marks, [1]
    has not run. *)
Example emit_callback_exception_run :
  match emit failing_body "S" no_args three_st with
  | Err e st => e = UserError 3 ∧ world st = [2; 3]%nat ∧
                times_called 1 st = 0%nat
  | Ok _ _ => False
  end.
Proof. vm_compute. done. Qed.

Lemma clear_one_and_all_witness :
  "A" ≠ "B" ∧
  ∃ st1 st2,
    clear ["A"] ab_st = Ok tt st1 ∧
    rcv st1 "A" = ∅ ∧
    receivers st1 !! "B" = receivers ab_st !! "B" ∧
    heap st1 = heap ab_st ∧
    clear [] ab_st = Ok tt st2 ∧
    (∀ s, rcv st2 s = ∅) ∧
    dom (receivers st2) = dom (receivers ab_st) ∧
    (∀ s, s ∈ dom (receivers ab_st) → receivers st2 !! s = Some ∅) ∧
    heap st2 = heap ab_st.
Proof.
  assert (Hne : "A" ≠ "B") by discriminate.
  split; [exact Hne|].
  exact (clear_one_and_all ab_st "A" "B" Hne).
Defined.

(** The state of the witness above has callback [1] on ["A"] and callback
    [2] on ["B"]; after [clear('A')] only the latter is left. *)
Example clear_A_keeps_B :
  rcv ab_st "A" = {[1%nat]} ∧ rcv ab_st "B" = {[2%nat]} ∧
  rcv (state_of (clear ["A"] ab_st)) "A" = ∅ ∧
  rcv (state_of (clear ["A"] ab_st)) "B" = {[2%nat]}.
Proof. vm_compute. done. Qed.

(** C9, as stated, fails for [on]: the integer [5] and [None] are not
    callable, and [on] given either as the callback returns normally. *)
Lemma on_accepts_integer_and_none :
  callable demo_st (VInt 5) = false ∧
  on (OneSignal "S") (VInt 5) None demo_st
    = Ok (Registrar (OneSignal "S") (Some 5)) demo_st ∧
  callable demo_st VNone = false ∧
  on (OneSignal "S") VNone None demo_st
    = Ok (Registrar (OneSignal "S") None) demo_st.
Proof. by repeat split. Qed.

Lemma non_callable_rejected_witness :
  callable demo_st (VRef 20) = false ∧
  _on (OneSignal "S") (VRef 20) None demo_st = Err AssertionError demo_st ∧
  on (OneSignal "S") (VRef 20) None demo_st = Err AssertionError demo_st ∧
  ∀ sigs' max',
    apply_registrar (Registrar sigs' max') (VRef 20) demo_st
    = Err AssertionError demo_st.
Proof.
  split; [reflexivity|].
  exact (non_callable_rejected demo_st (OneSignal "S") (VRef 20) None eq_refl).
Defined.

Lemma demo_st_registry_functions : registry_functions demo_st.
Proof. intros s c Hc. unfold rcv in Hc. simpl in Hc. set_solver. Qed.

Lemma bound_method_wrapped_witness :
  registry_functions demo_st ∧
  kind_of demo_st 10 = Some (KMethod (VRef 20) 11) ∧
  "S" ∈ sig_list (OneSignal "S") ∧
  ∃ w1 w2 st1 st2,
    on (OneSignal "S") (VRef 10) None demo_st = Ok (Registered (VRef w1)) st1 ∧
    heap demo_st !! w1 = None ∧
    kind_of st1 w1 = Some (KFunction (WrapperCode 10)) ∧
    w1 ∈ rcv st1 "S" ∧
    value_of (responds_to 10 "S" st1) = Some false ∧
    on (OneSignal "S") (VRef 10) None st1 = Ok (Registered (VRef w2)) st2 ∧
    w1 ≠ w2 ∧
    rcv st2 "S" = {[w1; w2]} ∪ rcv demo_st "S" ∧
    size (rcv st2 "S") = S (S (size (rcv demo_st "S"))) ∧
    value_of (responds_to 10 "S" st2) = Some false.
Proof.
  assert (Hs : "S" ∈ sig_list (OneSignal "S")) by left.
  split; [exact demo_st_registry_functions|]. split; [reflexivity|].
  split; [exact Hs|].
  exact (bound_method_wrapped demo_st 10 (VRef 20) 11 (OneSignal "S") None "S"
           demo_st_registry_functions eq_refl Hs).
Defined.

(** The run of the witness above: an emission calls both wrappers, and each
    calls the method. *)
Example bound_method_registered_twice :
  let st2 := state_of ((on (OneSignal "S") (VRef 10) None ;;;
                        on (OneSignal "S") (VRef 10) None) demo_st) in
  size (rcv st2 "S") = 2%nat ∧
  bool_decide (10%nat ∈ rcv st2 "S") = false ∧
  times_called 10 (state_of (emit demo_body "S" no_args st2)) = 2%nat.
Proof. vm_compute. done. Qed.


(** * Further properties of the registry operations *)

Section Registry.
Context {W : Type} `{IterOrder}.

Implicit Types (st : State W) (c r : nat) (s : string) (args : Args).

(** *** Queries *)

Lemma filter_none {A} (P : A → Prop) `{∀ x, Decision (P x)} (l : list A) :
  (∀ x, x ∈ l → ¬ P x) → filter P l = [].
Proof.
  induction l as [|x l IH]; intros Hl; [done|].
  rewrite filter_cons_False by (apply Hl; left).
  apply IH. intros y Hy. apply Hl. by right.
Qed.

Lemma signals_spec c st :
  ∃ l, signals c st = Ok l st ∧ NoDup l ∧ ∀ s, s ∈ l ↔ c ∈ rcv st s.
Proof.
  unfold signals. eexists. split; [done|]. split.
  - apply NoDup_filter. rewrite iter_keys_perm. apply NoDup_elements.
  - intros s. rewrite list_elem_of_filter. split; [by intros [? _]|].
    intros Hc. split; [done|].
    rewrite iter_keys_perm. apply elem_of_elements, elem_of_dom.
    destruct (elem_rcv_lookup _ _ _ Hc) as (X & -> & _). eauto.
Qed.

(** X1.  [signals(callback)] returns, without repetition, exactly the
    signals whose set holds the callback - none for a callback that is not
    registered - and leaves the state as it is. *)
Theorem signals_exact c st :
  ∃ l, signals c st = Ok l st ∧ NoDup l ∧
       (∀ s, s ∈ l ↔ c ∈ rcv st s) ∧
       (l = [] ↔ ∀ s, c ∉ rcv st s).
Proof.
  destruct (signals_spec c st) as (l & Hsig & Hnd & Hl).
  exists l. do 3 (split; [done|]). split.
  - intros -> s Hc. apply Hl in Hc. by inversion Hc.
  - intros Hnot. destruct l as [|s l]; [done|].
    exfalso. apply (Hnot s), Hl. left.
Qed.

(** X2.  [responds_to(callback, signal)] answers whether the set of the
    signal holds the callback.  It changes no set and no object, but
    [receivers] being a [defaultdict], asking about a signal that has no key
    yet adds the key with an empty set. *)
Theorem responds_to_adds_missing_key c s st :
  ∃ st', responds_to c s st = Ok (bool_decide (c ∈ rcv st s)) st' ∧
    (∀ s', rcv st' s' = rcv st s') ∧
    heap st' = heap st ∧ calls st' = calls st ∧ world st' = world st ∧
    dom (receivers st') = {[s]} ∪ dom (receivers st) ∧
    (is_Some (receivers st !! s) → st' = st) ∧
    (receivers st !! s = None →
       receivers st' = <[s := ∅]> (receivers st) ∧ c ∉ rcv st s).
Proof.
  destruct (getitem_spec st s) as (st' & Hget & Hh & Hc & Hw & Hr & Hd).
  exists st'. unfold responds_to, bind. rewrite Hget.
  do 6 (split; [done|]). unfold getitem in Hget. split.
  - intros [X HX]. rewrite HX in Hget. by injection Hget.
  - intros HN. rewrite HN in Hget. injection Hget as _ <-. split; [done|].
    unfold rcv. rewrite HN. simpl. apply not_elem_of_empty.
Qed.

Lemma for_each_step {A} (f : A → M W unit) x (l : list A) st st1 :
  f x st = Ok tt st1 → for_each (x :: l) f st = for_each l f st1.
Proof. intros Hx. simpl. unfold bind. by rewrite Hx. Qed.

(** *** Removal *)

Lemma remove_loop_dom c (l : list string) : ∀ st st',
  (∀ s, s ∈ l → c ∈ rcv st s) → NoDup l →
  for_each l (λ s, set_remove s c) st = Ok tt st' →
  dom (receivers st') = dom (receivers st).
Proof.
  induction l as [|s0 l IH]; intros st st' Hin Hnd Hrun.
  - by injection Hrun as ->.
  - apply NoDup_cons in Hnd as [Hs0 Hnd].
    simpl in Hrun. unfold bind in Hrun.
    rewrite set_remove_present in Hrun by (apply Hin; left).
    apply IH in Hrun; [|intros s Hs|done].
    + rewrite Hrun. simpl. rewrite dom_insert_L.
      destruct (elem_rcv_lookup _ _ _ (Hin s0 (list_elem_of_here _ _)))
        as (X & HX & _).
      apply elem_of_dom_2 in HX. set_solver.
    + rewrite rcv_set_receivers_insert. case_decide; [subst; done|].
      apply Hin. by right.
Qed.

Lemma disconnect_dom c st st' :
  disconnect c st = Ok tt st' → dom (receivers st') = dom (receivers st).
Proof.
  intros Hrun. unfold disconnect, bind, signals in Hrun.
  apply remove_loop_dom in Hrun; [done| |].
  - intros s Hs. by apply list_elem_of_filter in Hs as [? _].
  - apply NoDup_filter. rewrite iter_keys_perm. apply NoDup_elements.
Qed.

(** X3.  [disconnect(callback)] never raises: it removes the callback from
    the set of every signal, keeps the keys of the table and every other
    callback, and touches no object (the counter stays).  Afterwards the
    callback responds to nothing, and disconnecting it again changes
    nothing. *)
Theorem disconnect_removes_everywhere c st :
  ∃ st', disconnect c st = Ok tt st' ∧
    (∀ s, rcv st' s = rcv st s ∖ {[c]}) ∧
    dom (receivers st') = dom (receivers st) ∧
    heap st' = heap st ∧ calls st' = calls st ∧ world st' = world st ∧
    signals c st' = Ok [] st' ∧
    disconnect c st' = Ok tt st'.
Proof.
  destruct (disconnect_spec c st) as (st' & Hrun & Hh & Hc & Hw & Hr).
  assert (Hsig : signals c st' = Ok [] st').
  { unfold signals. rewrite filter_none; [done|].
    intros s _. rewrite Hr. set_solver. }
  exists st'. do 2 (split; [done|]).
  split; [by apply (disconnect_dom c)|].
  do 4 (split; [done|]). unfold disconnect, bind. by rewrite Hsig.
Qed.

(** X4.  Disconnecting a callback that is registered for no signal is not an
    error and leaves the state exactly as it was. *)
Theorem disconnect_unregistered c st :
  (∀ s, c ∉ rcv st s) → disconnect c st = Ok tt st.
Proof.
  intros Hc. unfold disconnect, bind, signals.
  rewrite filter_none; [done|]. intros s _. apply Hc.
Qed.

Lemma disconnect_from_spec c sigs st :
  ∃ st', disconnect_from c sigs st = Ok tt st' ∧
    (∀ s, rcv st' s =
          if decide (s ∈ sig_list sigs) then rcv st s ∖ {[c]} else rcv st s) ∧
    dom (receivers st') = list_to_set (sig_list sigs) ∪ dom (receivers st) ∧
    heap st' = heap st ∧ calls st' = calls st ∧ world st' = world st.
Proof.
  unfold disconnect_from. generalize (sig_list sigs) as l. clear sigs.
  intros l. revert st. induction l as [|s0 l IH]; intros st.
  - exists st. simpl. repeat split; try done. set_solver.
  - destruct (getitem_spec st s0) as (st0 & Hget & Hh0 & Hc0 & Hw0 & Hr0 & Hd0).
    assert (∃ st1, (b <- responds_to c s0 ;;
                    if b then set_remove s0 c else ret tt) st = Ok tt st1 ∧
              (∀ s, rcv st1 s = if decide (s0 = s) then rcv st s ∖ {[c]}
                                else rcv st s) ∧
              dom (receivers st1) = {[s0]} ∪ dom (receivers st) ∧
              heap st1 = heap st ∧ calls st1 = calls st ∧
              world st1 = world st) as (st1 & Hstep & Hr1 & Hd1 & Hh1 & Hc1 & Hw1).
    { unfold responds_to, bind. rewrite Hget. unfold ret.
      destruct (decide (c ∈ rcv st s0)) as [Hin|Hin].
      - rewrite bool_decide_eq_true_2 by done.
        rewrite set_remove_present by (by rewrite Hr0).
        eexists. split; [done|]. simpl. repeat split; try done.
        + intros s. rewrite rcv_set_receivers_insert, !Hr0.
          by case_decide; subst.
        + rewrite dom_insert_L, Hd0. set_solver.
      - rewrite bool_decide_eq_false_2 by done.
        exists st0. split; [done|]. repeat split; try done.
        intros s. rewrite Hr0. case_decide; [subst|done].
        symmetry. apply difference_disjoint_L. set_solver. }
    destruct (IH st1) as (st' & Hrun & Hr & Hd & Hh & Hc & Hw).
    exists st'.
    rewrite (for_each_step
      (λ signal, b <- responds_to c signal ;;
                 if b then set_remove signal c else ret tt) s0 l st st1 Hstep).
    split; [done|]. split; [|split; [|repeat split; congruence]].
    + intros s. rewrite Hr, Hr1.
      destruct (decide (s0 = s)) as [->|Hne].
      * rewrite (decide_True (P := s ∈ s :: l)) by left.
        case_decide; [|done]. set_solver.
      * destruct (decide (s ∈ l)).
        -- rewrite decide_True by (by right). done.
        -- rewrite decide_False; [done|].
           intros [?|?]%elem_of_cons; congruence.
    + rewrite Hd, Hd1. simpl. set_solver.
Qed.

(** X5.  [disconnect_from(callback, signals)] never raises: it removes the
    callback from the sets of the listed signals, skips those that do not
    hold it, and leaves every other signal, every other callback and every
    object alone.  A listed signal without a key gets one, with an empty
    set. *)
Theorem disconnect_from_listed_only c sigs st :
  ∃ st', disconnect_from c sigs st = Ok tt st' ∧
    (∀ s, s ∈ sig_list sigs → c ∉ rcv st' s) ∧
    (∀ s, s ∉ sig_list sigs → rcv st' s = rcv st s) ∧
    (∀ r s, r ≠ c → r ∈ rcv st' s ↔ r ∈ rcv st s) ∧
    dom (receivers st') = list_to_set (sig_list sigs) ∪ dom (receivers st) ∧
    heap st' = heap st ∧ calls st' = calls st ∧ world st' = world st.
Proof.
  destruct (disconnect_from_spec c sigs st)
    as (st' & Hrun & Hr & Hd & Hh & Hc & Hw).
  exists st'. split; [done|]. split; [|split; [|split; [|done]]].
  - intros s Hs. rewrite Hr, decide_True by done. set_solver.
  - intros s Hs. by rewrite Hr, decide_False.
  - intros r s Hne. rewrite Hr. case_decide; [|done]. set_solver.
Qed.

(** *** Registration *)

(** X6.  [on] for a function object registers it for every signal of the
    list and for no other, returns the callback itself and sets its counter
    to [max_calls]: afterwards [responds_to] is true for each listed signal
    and [signals(callback)] contains them.  Other callbacks keep their
    registrations and attributes; with an empty list of signals only the
    attributes of the callback are written. *)
Theorem on_registers_function st c k a sigs max :
  heap st !! c = Some (mkObj (KFunction k) a) →
  ∃ st' l,
    on sigs (VRef c) max st = Ok (Registered (VRef c)) st' ∧
    (∀ s, s ∈ sig_list sigs → value_of (responds_to c s st') = Some true) ∧
    signals c st' = Ok l st' ∧ (∀ s, s ∈ sig_list sigs → s ∈ l) ∧
    max_calls_of st' c = Some max ∧
    (∀ s, s ∉ sig_list sigs → rcv st' s = rcv st s) ∧
    (∀ r s, r ≠ c → r ∈ rcv st' s ↔ r ∈ rcv st s) ∧
    (∀ r, r ≠ c → heap st' !! r = heap st !! r) ∧
    calls st' = calls st ∧ world st' = world st.
Proof.
  intros Ha.
  destruct (_on_function st c k a sigs max Ha)
    as (st' & Hrun & Hh & Hc & Hw & Hr & Hd).
  destruct (signals_spec c st') as (l & Hsig & _ & Hl).
  assert (Hin : ∀ s, s ∈ sig_list sigs → c ∈ rcv st' s)
    by (intros s Hs; by apply (elem_rcv_registered _ _ _ _ _ Hr)).
  exists st', l. rewrite (on_function _ _ _ _ _ _ Ha), Hrun.
  split; [done|]. split; [|split; [done|split; [|split; [|split; [|split]]]]].
  - intros s Hs. rewrite responds_to_value, bool_decide_eq_true_2; auto.
  - intros s Hs. apply Hl. auto.
  - unfold max_calls_of, attrs_of. by rewrite Hh, lookup_insert_eq.
  - intros s Hs. by rewrite Hr, decide_False.
  - intros r s Hne. rewrite Hr. case_decide; [|done]. set_solver.
  - split; [|done]. intros r Hne. by rewrite Hh, lookup_insert_ne.
Qed.

Lemma _on_outcome st sigs v max :
  (∃ c k a st', v = VRef c ∧
     heap st !! c = Some (mkObj (KFunction k) a) ∧
     _on sigs v max st = Ok v st') ∨
  (_on sigs v max st = Err AssertionError st ∧ callable st v = false) ∨
  (_on sigs v max st = Err AttributeError st ∧ is_method st v = true).
Proof.
  destruct v as [| | |r]; try (right; left; done).
  destruct (heap st !! r) as [[[k|self f|] a]|] eqn:Hr.
  - left. destruct (_on_function st r k a sigs max Hr) as (st' & Hrun & _).
    exists r, k, a, st'. done.
  - right; right. unfold _on, callable, is_method, kind_of. rewrite Hr. simpl.
    unfold bind, setattr. by rewrite Hr.
  - right; left. unfold _on, callable, kind_of. by rewrite Hr.
  - right; left. unfold _on, callable, kind_of. by rewrite Hr.
Qed.

Lemma on_outcome st sigs v max :
  (∃ res st', on sigs v max st = Ok res st') ∨
  (on sigs v max st = Err AssertionError st ∧ callable st v = false).
Proof.
  destruct v as [| | |r]; try (left; by eexists _, _).
  - right. done.
  - destruct (is_method st (VRef r)) eqn:Hm.
    + left. unfold is_method in Hm.
      destruct (kind_of st r) as [[|self f|]|] eqn:Hk; try done.
      destruct (on_wrapper st r self f sigs max Hk) as (w & st' & Hon & _).
      eauto.
    + destruct (_on_outcome st sigs (VRef r) max)
        as [(c & k & a & st' & _ & _ & Hrun)|[[Hrun Hc]|[_ Hm']]];
        [| |congruence].
      * left. unfold on. rewrite Hm. unfold bind. rewrite Hrun. eauto.
      * right. unfold on. rewrite Hm. unfold bind. by rewrite Hrun.
Qed.

(** X7.  A registration that raises has written nothing.  The signals are
    strings, and the value given as the callback is [None], an integer, a
    string, a function object, a bound method or an object that is not
    callable; callables that take no new attributes, and signals or
    callbacks that cannot be hashed, are not among the values here.  For
    these values [on] raises nothing but [AssertionError], for a value that
    is not callable, and [_on] nothing but that and [AttributeError], for a
    bound method, at the assignment of [_max_calls]; in each case the state
    is the one of the call. *)
Theorem failed_registration_changes_nothing st sigs v max :
  (∀ e st', on sigs v max st = Err e st' →
     st' = st ∧ e = AssertionError ∧ callable st v = false) ∧
  (∀ e st', _on sigs v max st = Err e st' →
     st' = st ∧
     ((e = AssertionError ∧ callable st v = false) ∨
      (e = AttributeError ∧ is_method st v = true))).
Proof.
  split; intros e st' Herr.
  - destruct (on_outcome st sigs v max) as [(res & st1 & Hrun)|[Hrun Hc]];
      rewrite Hrun in Herr; [done|].
    by injection Herr as <- <-.
  - destruct (_on_outcome st sigs v max)
      as [(c & k & a & st1 & _ & _ & Hrun)|[[Hrun Hc]|[Hrun Hm]]];
      rewrite Hrun in Herr; [done| |].
    + injection Herr as <- <-. auto.
    + injection Herr as <- <-. auto.
Qed.

(** X8.  The decorator form does not take a bound method: [on(signals)]
    returns the registrar, and the registrar given a bound method raises
    [AttributeError] where [_on] assigns [_max_calls], with nothing
    registered.  Passed to [on] directly the same method is wrapped and
    registered. *)
Theorem decorator_rejects_bound_method st m self f sigs max :
  kind_of st m = Some (KMethod self f) →
  (reg <- on sigs VNone max ;; apply_registrar reg (VRef m)) st
    = Err AttributeError st ∧
  ∃ w st', on sigs (VRef m) max st = Ok (Registered (VRef w)) st' ∧
           ∀ s, s ∈ sig_list sigs → w ∈ rcv st' s.
Proof.
  intros Hm. split.
  - destruct (_on_outcome st sigs (VRef m) max)
      as [(c & k & a & st' & [= <-] & Ha & _)|[[_ Hc]|[Hrun _]]].
    + unfold kind_of in Hm. rewrite Ha in Hm. done.
    + unfold callable in Hc. by rewrite Hm in Hc.
    + done.
  - destruct (on_wrapper st m self f sigs max Hm)
      as (w & st' & Hon & _ & _ & _ & Hr).
    exists w, st'. split; [done|]. intros s Hs.
    by apply (elem_rcv_registered _ _ _ _ _ Hr).
Qed.

(** X9.  For a function object the decorator forms do what the direct call
    does: [on(signals, max_calls=m)(f)] is [on(signals, f, max_calls=m)],
    and with the limit given in second position, [on(signals, n)(f)] is
    [on(signals, f, max_calls=n)], whatever [max_calls] was passed by
    keyword. *)
Theorem decorator_registers_like_direct_call st c k a sigs max n :
  heap st !! c = Some (mkObj (KFunction k) a) →
  (reg <- on sigs VNone max ;;
   v <- apply_registrar reg (VRef c) ;; ret (Registered v)) st
    = on sigs (VRef c) max st ∧
  (reg <- on sigs (VInt n) max ;;
   v <- apply_registrar reg (VRef c) ;; ret (Registered v)) st
    = on sigs (VRef c) (Some n) st ∧
  ∃ st', on sigs (VRef c) max st = Ok (Registered (VRef c)) st'.
Proof.
  intros Ha. rewrite !(on_function _ _ _ _ _ _ Ha).
  split; [done|]. split; [done|].
  destruct (_on_function st c k a sigs max Ha) as (st' & -> & _). eauto.
Qed.

(** X10.  [once(signals)] used as a decorator registers with a limit of one
    call, as [once(signals, f)] does; but an integer in the place of the
    callback replaces that limit: [once(signals, n)] is the registrar for
    [max_calls=n]. *)
Theorem once_as_decorator st c k a sigs n :
  heap st !! c = Some (mkObj (KFunction k) a) →
  (reg <- once sigs VNone ;;
   v <- apply_registrar reg (VRef c) ;; ret (Registered v)) st
    = once sigs (VRef c) st ∧
  (∃ st', once sigs (VRef c) st = Ok (Registered (VRef c)) st' ∧
          max_calls_of st' c = Some (Some 1)) ∧
  once sigs (VInt n) st = Ok (Registrar sigs (Some n)) st.
Proof.
  intros Ha. unfold once. rewrite !(on_function _ _ _ _ _ _ Ha).
  split; [done|]. split; [|done].
  destruct (_on_function st c k a sigs (Some 1) Ha) as (st' & -> & Hh & _).
  exists st'. split; [done|].
  unfold max_calls_of, attrs_of. by rewrite Hh, lookup_insert_eq.
Qed.

(** X11.  Registering a function object for signals that did not hold it
    and then removing it from the same signals with [disconnect_from] gives
    back the sets the signals had; what stays is the counter that the
    registration wrote on the callback. *)
Theorem register_then_disconnect_from st c k a sigs max :
  heap st !! c = Some (mkObj (KFunction k) a) →
  (∀ s, s ∈ sig_list sigs → c ∉ rcv st s) →
  ∃ st1 st2,
    on sigs (VRef c) max st = Ok (Registered (VRef c)) st1 ∧
    disconnect_from c sigs st1 = Ok tt st2 ∧
    (∀ s, rcv st2 s = rcv st s) ∧
    max_calls_of st2 c = Some max.
Proof.
  intros Ha Hnot.
  destruct (_on_function st c k a sigs max Ha)
    as (st1 & Hrun & Hh & _ & _ & Hr & _).
  destruct (disconnect_from_spec c sigs st1)
    as (st2 & Hdis & Hr2 & _ & Hh2 & _).
  exists st1, st2. rewrite (on_function _ _ _ _ _ _ Ha), Hrun.
  do 2 (split; [done|]). split.
  - intros s. rewrite Hr2, Hr. case_decide as Hs; [|done].
    specialize (Hnot s Hs). set_solver.
  - unfold max_calls_of, attrs_of. by rewrite Hh2, Hh, lookup_insert_eq.
Qed.

Lemma state_eq st st' :
  receivers st' = receivers st → heap st' = heap st →
  calls st' = calls st → world st' = world st → st' = st.
Proof. destruct st, st'; simpl. by intros -> -> -> ->. Qed.

(** X12.  [disconnect(callback)] is [disconnect_from] applied to the signals
    that [signals(callback)] returns: both end in the same state. *)
Theorem disconnect_is_disconnect_from_its_signals c st :
  ∃ l st',
    signals c st = Ok l st ∧
    disconnect c st = Ok tt st' ∧
    disconnect_from c (ManySignals l) st = Ok tt st'.
Proof.
  destruct (signals_spec c st) as (l & Hsig & _ & Hl).
  destruct (disconnect_spec c st) as (st1 & Hd1 & Hh1 & Hc1 & Hw1 & Hr1).
  pose proof (disconnect_dom c st st1 Hd1) as Hdom1.
  destruct (disconnect_from_spec c (ManySignals l) st)
    as (st2 & Hd2 & Hr2 & Hdom2 & Hh2 & Hc2 & Hw2).
  exists l, st1. do 2 (split; [done|]). rewrite Hd2. f_equal.
  apply state_eq; try congruence.
  apply receivers_eq.
  - intros s. rewrite Hr1, Hr2. simpl. case_decide as Hs; [done|].
    symmetry. apply difference_disjoint_L. rewrite Hl in Hs. set_solver.
  - rewrite Hdom1, Hdom2. simpl. apply subseteq_union_1_L.
    apply elem_of_subseteq. intros s Hs%elem_of_list_to_set. apply Hl in Hs.
    destruct (elem_rcv_lookup _ _ _ Hs) as (X & HX & _).
    by apply elem_of_dom_2 in HX.
Qed.

(** *** Clearing *)

(** X13.  [clear_all()] never raises and does what [clear()] without
    arguments does: every key of the table keeps its place with an empty
    set, and no callback object is touched, so that the counters and helper
    attributes of the callbacks outlive the clearing. *)
Theorem clear_all_empties_every_set st :
  ∃ st', clear_all st = Ok tt st' ∧
    clear [] st = Ok tt st' ∧
    receivers st' = (λ _, ∅) <$> receivers st ∧
    heap st' = heap st ∧ calls st' = calls st ∧ world st' = world st.
Proof.
  destruct (clear_loop (iter_keys (dom (receivers st))) st)
    as (st' & Hrun & Hh & Hc & Hw & Hr).
  exists st'. unfold clear_all, clear. do 2 (split; [done|]).
  split; [|done]. apply map_eq. intros s. rewrite Hr, lookup_fmap.
  case_decide as Hs.
  - rewrite iter_keys_perm in Hs.
    apply elem_of_elements, elem_of_dom in Hs as [X ->]. done.
  - destruct (receivers st !! s) eqn:Hl; [|done].
    exfalso. apply Hs. rewrite iter_keys_perm.
    apply elem_of_elements, elem_of_dom. eauto.
Qed.

(** X14.  [clear] given one or more signals empties the sets of these
    signals and of no other, whether or not a signal is listed twice; a
    listed signal that has no key gets one, with an empty set. *)
Theorem clear_listed_signals (l : list string) st :
  l ≠ [] →
  ∃ st', clear l st = Ok tt st' ∧
    (∀ s, receivers st' !! s =
          if decide (s ∈ l) then Some ∅ else receivers st !! s) ∧
    dom (receivers st') = list_to_set l ∪ dom (receivers st) ∧
    heap st' = heap st ∧ calls st' = calls st ∧ world st' = world st.
Proof.
  intros Hl. destruct (clear_loop l st) as (st' & Hrun & Hh & Hc & Hw & Hr).
  exists st'. split; [by destruct l|]. split; [done|]. split; [|done].
  apply set_eq. intros s.
  rewrite elem_of_union, elem_of_list_to_set, !elem_of_dom, Hr.
  case_decide; [|tauto]. split; [auto|]. by eexists.
Qed.

(** *** Emission *)

(** X15.  Emitting a signal that no callback is registered for calls
    nothing and raises nothing, whatever the callbacks of other signals
    would do: no set and no object changes.  If the signal has no key yet
    the lookup adds it, with an empty set; otherwise the state is exactly as
    before. *)
Theorem emit_without_receivers (body : nat → Args → M W unit) s args st :
  rcv st s = ∅ →
  ∃ st', emit body s args st = Ok tt st' ∧
    (∀ s', rcv st' s' = rcv st s') ∧
    heap st' = heap st ∧ calls st' = calls st ∧ world st' = world st ∧
    dom (receivers st') = {[s]} ∪ dom (receivers st) ∧
    (is_Some (receivers st !! s) → st' = st).
Proof.
  intros Hempty.
  destruct (getitem_spec st s) as (st' & Hget & Hh & Hc & Hw & Hr & Hd).
  assert (Hnil : iter_set (rcv st s) = []).
  { apply Permutation_nil_r. rewrite iter_set_perm, Hempty.
    by rewrite elements_empty. }
  exists st'. unfold emit, bind. rewrite Hget, Hnil.
  do 6 (split; [done|]). intros [X HX].
  unfold getitem in Hget. rewrite HX in Hget. by injection Hget.
Qed.

End Registry.

(** * Further properties of dispatch *)

Section Dispatching.
Context {W : Type} `{IterOrder}.
Variable body : nat → Args → M W unit.

Implicit Types (st : State W) (c r : nat) (s : string) (args : Args).

Section Quiet.
Hypothesis body_quiet : quiet body.

(** *** Callbacks that are not registered for the signal *)


(** *** Scoped emission with quiet callbacks *)

(** X21.  When the callbacks do not raise, [emitting] leaves the outcome of
    its block as it is: the block runs after the enter emission, the exit
    emission follows it and returns, and [emitting] returns if the block
    returned and raises the exception of the block if the block raised. *)
Theorem emitting_keeps_outcome st exit enter (blk : M W unit) :
  wf st → (∀ st0, wf st0 → wf (state_of (blk st0))) →
  ∃ st0 st2,
    match enter with
    | Some en => emit body en no_args st
    | None => Ok tt st
    end = Ok tt st0 ∧
    emit body exit no_args (state_of (blk st0)) = Ok tt st2 ∧
    emitting body exit enter blk st =
      match blk st0 with
      | Ok _ _ => Ok tt st2
      | Err e _ => Err e st2
      end.
Proof.
  intros Hwf Hblk.
  assert (∃ st0, match enter with
                 | Some en => emit body en no_args st
                 | None => Ok tt st
                 end = Ok tt st0 ∧ wf st0) as (st0 & Henter & Hwf0).
  { destruct enter as [en|]; [|by exists st].
    destruct (emit_quiet_wf body body_quiet st en no_args Hwf)
      as (st0 & Hrun & Hwf0 & _). by exists st0. }
  destruct (emit_quiet_wf body body_quiet (state_of (blk st0)) exit no_args
              (Hblk st0 Hwf0)) as (st2 & Hexit & _).
  exists st0, st2. do 2 (split; [done|]).
  unfold emitting, bind, try_finally.
  assert (match enter with
          | Some s => emit body s no_args
          | None => ret ()
          end st = Ok tt st0) as -> by (by destruct enter).
  destruct (blk st0) as [[] st1|e st1]; simpl in Hexit; by rewrite Hexit.
Qed.

(** *** What is passed to the callbacks *)

Section Journal.
Context {E : Type}.
Variable log : W → list E.
Variable entry : nat → Args → E.
Hypothesis body_journal : keeps_journal log entry body.

Lemma elem_of_flat_map {A B} (f : A → list B) (l : list A) y :
  y ∈ flat_map f l ↔ ∃ x, x ∈ l ∧ y ∈ f x.
Proof.
  rewrite list_elem_of_In, in_flat_map. split; intros (z & Hz & Hy); exists z.
  - by rewrite !list_elem_of_In.
  - by rewrite <-!list_elem_of_In.
Qed.

(** X16.  [emit] hands its arguments on unchanged.  In a registry that
    holds only what [on] put there, with callbacks whose code returns
    normally, does not touch the registry and keeps a journal of its runs,
    the journal grows during [emit(signal, args)] by the runs that
    [emit_runs] lists: for each callback registered for the signal whose
    counter is not used up, in the order of the set, a user function runs
    with exactly [args], and the function of a bound method behind a wrapper
    runs with the instance of the method put before [args]. *)
Theorem emit_passes_arguments s args st :
  wf st →
  ∃ st', emit body s args st = Ok tt st' ∧
    log (world st') =
      log (world st) ++ map (entry_of entry) (emit_runs st s args) ∧
    Forall (λ p, p.2 = args ∨ ∃ self, p.2 = bind_self self args)
      (emit_runs st s args) ∧
    (∀ c n, c ∈ rcv st s → exhausted st c = false →
       kind_of st c = Some (KFunction (UserCode n)) →
       (n, args) ∈ emit_runs st s args) ∧
    (∀ c m self f n, c ∈ rcv st s → exhausted st c = false →
       kind_of st c = Some (KFunction (WrapperCode m)) →
       kind_of st m = Some (KMethod self f) →
       kind_of st f = Some (KFunction (UserCode n)) →
       (n, bind_self self args) ∈ emit_runs st s args).
Proof.
  intros Hwf.
  destruct (emit_quiet_wf body body_quiet st s args Hwf) as (st' & Hrun & _).
  exists st'. split; [done|]. split.
  { apply (emit_journal body body_quiet log entry body_journal st st' s args);
      [|done]. intros c Hc. by apply (Hwf s). }
  assert (Hmem : ∀ c p, c ∈ rcv st s → exhausted st c = false →
            target st c args = Some p → p ∈ emit_runs st s args).
  { intros c p Hc Hex Ht. unfold emit_runs. apply elem_of_flat_map.
    exists c. split; [rewrite iter_set_perm; by apply elem_of_elements|].
    unfold call_runs. rewrite Hex, Ht. simpl. left. }
  split; [|split].
  - apply Forall_forall. intros p Hp. unfold emit_runs in Hp.
    apply elem_of_flat_map in Hp as (c & _ & Hp).
    unfold call_runs in Hp. destruct (exhausted st c); [by inversion Hp|].
    unfold target, method_target in Hp.
    destruct (kind_of st c) as [[[n|m]|self f|]|]; try by inversion Hp.
    + apply list_elem_of_singleton in Hp as ->. by left.
    + destruct (kind_of st m) as [[|self f|]|]; try by inversion Hp.
      destruct (kind_of st f) as [[[n|]| |]|]; try by inversion Hp.
      apply list_elem_of_singleton in Hp as ->. right. by exists self.
    + destruct (kind_of st f) as [[[n|]| |]|]; try by inversion Hp.
      apply list_elem_of_singleton in Hp as ->. right. by exists self.
  - intros c n Hc Hex Hk. apply (Hmem c); [done..|].
    unfold target. by rewrite Hk.
  - intros c m self f n Hc Hex Hk Hm Hf. apply (Hmem c); [done..|].
    unfold target, method_target. by rewrite Hk, Hm, Hf.
Qed.

(** X20.  A callback that is in the registry without the attribute
    [_max_calls] - one put there without [on] - is given [_max_calls = None]
    by [_call] and called: it counts as having no limit.  Its function runs
    once, with the arguments of the call (after the instance, for the
    function of a bound method): with code that returns normally, does not
    touch the registry and keeps a journal of its runs, the journal grows by
    this one entry. *)
Theorem call_without_counter st c args :
  invocable st c = true → max_calls_of st c = None →
  ∃ st' n a, _call body c args st = Ok tt st' ∧
    max_calls_of st' c = Some None ∧
    target st c args = Some (n, a) ∧
    log (world st') = log (world st) ++ [entry n a] ∧
    times_called c st' = S (times_called c st) ∧
    (∀ s, c ∈ rcv st' s ↔ c ∈ rcv st s) ∧
    (∀ r, r ≠ c → heap st' !! r = heap st !! r).
Proof.
  intros Hi Hmax.
  destruct (_call_quiet body body_quiet st c args Hi)
    as (st' & Hrun & _ & Hu & Hs).
  unfold served in Hs. rewrite Hmax in Hs. destruct Hs as (Hm & Ht & Hmax').
  destruct (invocable_target st c args Hi) as (n & a & Htg).
  pose proof (_call_journal body log entry st c args) as Hj.
  rewrite Hrun in Hj. simpl in Hj.
  exists st', n, a. do 3 (split; [done|]). split.
  - rewrite Hj; [|intros; apply body_journal|done].
    unfold call_runs, exhausted. by rewrite Hmax, Htg.
  - do 2 (split; [done|]). intros r Hr. by destruct (Hu r Hr).
Qed.

End Journal.

(** *** Call limits over many emissions *)

Section Tally.
Variable ran : W → list nat.
Hypothesis body_tally : keeps_journal ran function_ran body.

Lemma unregistered_never_runs c s n (argsl : list Args) : ∀ st,
  wf st → is_function st c = true → (∀ s', c ∉ rcv st s') →
  code_of st c = Some n → only_runner st s c n →
  ∃ st', for_each argsl (λ a, emit body s a) st = Ok tt st' ∧
    wf st' ∧
    times_run ran n st' = times_run ran n st ∧
    times_called c st' = times_called c st ∧
    (∀ s', c ∉ rcv st' s').
Proof.
  induction argsl as [|a l IH]; intros st Hwf Hf Hnot Hcode Hone.
  - exists st. by repeat split.
  - destruct (emit_tally body body_quiet ran body_tally st s a c n Hwf Hcode Hone)
      as (st1 & Hrun & Hwf1 & Hk1 & Hu & _ & Hsub & Hcode1 & Hn).
    destruct (Hu c (Hnot s)) as (_ & Hm & Ht).
    destruct (IH st1 Hwf1) as (st' & Hrest & Hwf' & Hn' & Ht' & Hnot').
    { by rewrite (is_function_kinds st). }
    { intros s' Hin. apply (Hnot s'). by apply Hm. }
    { done. }
    { apply only_runner_kept with st; auto. }
    exists st'. rewrite (for_each_step _ _ _ _ _ Hrun).
    split; [done|]. split; [done|]. split; [|split; [|done]].
    + rewrite Hn', Hn. rewrite decide_False by apply Hnot. lia.
    + rewrite Ht'. auto.
Qed.

(** X18.  A callback registered for a signal with [k] calls left, which
    alone among the callbacks of the signal runs its function, in a registry
    that holds only what [on] put there and with code that returns normally,
    does not touch the registry and runs no callback itself: its function
    runs in the first [k] emissions of the signal and in no later one, so
    that after [n] emissions it has run [min n k] times.  While [n] is at
    most [k] the callback is still registered, with [k - n] calls left -
    also when this is [0]; the emission after that removes it from every
    signal.  A limit of zero or less means no run at all. *)
Theorem limited_callback_over_emissions c s n (argsl : list Args) : ∀ st k,
  wf st → c ∈ rcv st s → max_calls_of st c = Some (Some k) →
  code_of st c = Some n → only_runner st s c n →
  ∃ st', for_each argsl (λ a, emit body s a) st = Ok tt st' ∧
    wf st' ∧
    times_run ran n st' =
      (times_run ran n st + Nat.min (length argsl) (Z.to_nat k))%nat ∧
    times_called c st' =
      (times_called c st + Nat.min (length argsl) (Z.to_nat k))%nat ∧
    if decide (length argsl ≤ Z.to_nat k)%nat then
      c ∈ rcv st' s ∧
      max_calls_of st' c = Some (Some (k - Z.of_nat (length argsl)))
    else ∀ s', c ∉ rcv st' s'.
Proof.
  induction argsl as [|a l IH]; intros st k Hwf Hin Hmax Hcode Hone.
  - exists st. split; [done|]. split; [done|]. split; [simpl; lia|].
    split; [simpl; lia|].
    rewrite decide_True by (simpl; lia). split; [done|]. rewrite Hmax.
    do 2 f_equal. simpl length. lia.
  - assert (Hf : is_function st c = true)
      by (by apply invocable_is_function, (Hwf s)).
    destruct (decide (k ≤ 0)) as [Hk|Hk].
    + destruct (emit_exhausted body body_quiet ran body_tally st s a c n k
                  Hwf Hcode Hone Hin Hmax Hk)
        as (st1 & Hrun & Hwf1 & Hk1 & Hsub & Hnot & Ht & _ & Hn).
      destruct (unregistered_never_runs c s n l st1 Hwf1)
        as (st' & Hrest & Hwf' & Hn' & Ht' & Hnot'); [|done| | |].
      { by rewrite (is_function_kinds st). }
      { by rewrite (code_of_kinds st). }
      { apply only_runner_kept with st; auto. }
      exists st'. rewrite (for_each_step _ _ _ _ _ Hrun).
      split; [done|]. split; [done|]. split; [|split].
      * rewrite Hn', Hn. simpl length. lia.
      * rewrite Ht', Ht. simpl length. lia.
      * rewrite decide_False by (simpl length; lia). done.
    + destruct (emit_live body body_quiet ran body_tally st s a c n k
                  Hwf Hcode Hone Hin Hmax)
        as (st1 & Hrun & Hwf1 & Hk1 & Hsub & Hm & Ht & Hmax1 & Hn); [lia|].
      destruct (IH st1 (k - 1) Hwf1)
        as (st' & Hrest & Hwf' & Hn' & Ht' & Hend);
        [by apply Hm|done|by rewrite (code_of_kinds st)| |].
      { apply only_runner_kept with st; auto. }
      exists st'. rewrite (for_each_step _ _ _ _ _ Hrun).
      split; [done|]. split; [done|]. split; [|split].
      * rewrite Hn', Hn. simpl length. lia.
      * rewrite Ht', Ht. simpl length. lia.
      * simpl length.
        destruct (decide (length l ≤ Z.to_nat (k - 1))%nat) as [Hle|Hle].
        -- rewrite decide_True by lia. destruct Hend as [? ->].
           split; [done|]. do 2 f_equal. simpl length. lia.
        -- rewrite decide_False by lia. done.
Qed.

(** X19.  A callback registered for a signal without a limit, which alone
    among the callbacks of the signal runs its function, in a registry that
    holds only what [on] put there and with code that returns normally, does
    not touch the registry and runs no callback itself: its function runs
    once in every emission of the signal, and the callback stays
    registered, without a limit. *)
Theorem unlimited_callback_over_emissions c s n (argsl : list Args) : ∀ st,
  wf st → c ∈ rcv st s → max_calls_of st c = Some None →
  code_of st c = Some n → only_runner st s c n →
  ∃ st', for_each argsl (λ a, emit body s a) st = Ok tt st' ∧
    wf st' ∧
    times_run ran n st' = (times_run ran n st + length argsl)%nat ∧
    times_called c st' = (times_called c st + length argsl)%nat ∧
    c ∈ rcv st' s ∧ max_calls_of st' c = Some None.
Proof.
  induction argsl as [|a l IH]; intros st Hwf Hin Hmax Hcode Hone.
  - exists st. simpl. repeat split; try done; lia.
  - destruct (emit_unlimited body body_quiet ran body_tally st s a c n
                Hwf Hcode Hone Hin Hmax)
      as (st1 & Hrun & Hwf1 & Hk1 & Hsub & Hm & Ht & Hmax1 & Hn).
    destruct (IH st1 Hwf1) as (st' & Hrest & Hwf' & Hn' & Ht' & Hend);
      [by apply Hm|done|by rewrite (code_of_kinds st)| |].
    { apply only_runner_kept with st; auto. }
    exists st'. rewrite (for_each_step _ _ _ _ _ Hrun).
    split; [done|]. split; [done|]. split; [|split; [|done]].
    + rewrite Hn', Hn. simpl length. lia.
    + rewrite Ht', Ht. simpl length. lia.
Qed.

End Tally.

End Quiet.

(** *** Scoped emission when an emission fails *)


End Dispatching.

(** * Invariants of the registry *)

Section Invariants.
Context {W : Type} `{IterOrder}.

Implicit Types (st : State W) (c r : nat) (s : string) (args : Args).

Lemma shrinking_keeps_functions st st' :
  heap st' = heap st → (∀ s c, c ∈ rcv st' s → c ∈ rcv st s) →
  registry_functions st → registry_functions st'.
Proof.
  intros Hh Hsub Hrf s c Hc. unfold is_function, kind_of. rewrite Hh.
  apply (Hrf s c). by apply Hsub.
Qed.

Lemma shrinking_keeps_wf st st' :
  heap st' = heap st → (∀ s c, c ∈ rcv st' s → c ∈ rcv st s) →
  wf st → wf st'.
Proof.
  intros Hh Hsub Hwf s c Hc.
  rewrite (invocable_kinds st) by (intros r; unfold kind_of; by rewrite Hh).
  apply (Hwf s c). by apply Hsub.
Qed.

Lemma disconnect_shrinks c st :
  heap (state_of (disconnect c st)) = heap st ∧
  ∀ s c', c' ∈ rcv (state_of (disconnect c st)) s → c' ∈ rcv st s.
Proof.
  destruct (disconnect_spec c st) as (st' & -> & Hh & _ & _ & Hr).
  split; [done|]. intros s c'. simpl. rewrite Hr. set_solver.
Qed.

Lemma disconnect_from_shrinks c sigs st :
  heap (state_of (disconnect_from c sigs st)) = heap st ∧
  ∀ s c', c' ∈ rcv (state_of (disconnect_from c sigs st)) s → c' ∈ rcv st s.
Proof.
  destruct (disconnect_from_spec c sigs st)
    as (st' & -> & Hr & _ & Hh & _).
  split; [done|]. intros s c'. simpl. rewrite Hr. case_decide; set_solver.
Qed.

Lemma clear_loop_shrinks (l : list string) st :
  heap (state_of (for_each l set_clear st)) = heap st ∧
  ∀ s c', c' ∈ rcv (state_of (for_each l set_clear st)) s → c' ∈ rcv st s.
Proof.
  destruct (clear_loop l st) as (st' & -> & Hh & _ & _ & Hr).
  split; [done|]. intros s c'. simpl. unfold rcv. rewrite Hr.
  case_decide; [|done]. simpl. set_solver.
Qed.

Lemma _on_keeps_functions st sigs v max :
  registry_functions st → registry_functions (state_of (_on sigs v max st)).
Proof.
  intros Hrf.
  destruct v as [| | |c]; try done.
  destruct (heap st !! c) as [[[k|self f|] a]|] eqn:Hc.
  - destruct (_on_function st c k a sigs max Hc)
      as (st' & -> & Hh & _ & _ & Hr & _).
    intros s x. simpl. rewrite Hr. intros Hx.
    rewrite (is_function_kinds st)
      by (by apply kinds_put_attrs with c k a
                 (mkAttrs (Some max) true true true true)).
    assert (x = c ∨ x ∈ rcv st s) as [->|Hin].
    { case_decide; [|by right].
      apply elem_of_union in Hx as [->%elem_of_singleton|?]; auto. }
    + unfold is_function, kind_of. by rewrite Hc.
    + by apply (Hrf s).
  - unfold _on, callable, kind_of. rewrite Hc. simpl.
    unfold bind, setattr. by rewrite Hc.
  - unfold _on, callable, kind_of. by rewrite Hc.
  - unfold _on, callable, kind_of. by rewrite Hc.
Qed.

Lemma on_keeps_functions st sigs v max :
  registry_functions st → registry_functions (state_of (on sigs v max st)).
Proof.
  intros Hrf. destruct v as [| |str|c]; try done.
  destruct (kind_of st c) as [[|self f|]|] eqn:Hk.
  - pose proof (_on_keeps_functions st sigs (VRef c) max Hrf) as Hon.
    unfold on, is_method. rewrite Hk. unfold bind.
    by destruct (_on sigs (VRef c) max st).
  - destruct (on_method st c self f sigs max Hrf Hk)
      as (w & st' & -> & _ & _ & _ & _ & Hrf' & _). done.
  - pose proof (_on_keeps_functions st sigs (VRef c) max Hrf) as Hon.
    unfold on, is_method. rewrite Hk. unfold bind.
    by destruct (_on sigs (VRef c) max st).
  - pose proof (_on_keeps_functions st sigs (VRef c) max Hrf) as Hon.
    unfold on, is_method. rewrite Hk. unfold bind.
    by destruct (_on sigs (VRef c) max st).
Qed.

(** X23.  The registry never holds anything but function objects: this is
    so for an empty table, and after it is so it stays so whatever value is
    given to [on], [once] or [_on] - a bound method is wrapped or refused, a
    value that is not callable is refused - and through [disconnect],
    [disconnect_from], [clear] and [clear_all]. *)
Theorem registry_holds_only_functions st :
  registry_functions st →
  (∀ sigs v max, registry_functions (state_of (on sigs v max st))) ∧
  (∀ sigs v, registry_functions (state_of (once sigs v st))) ∧
  (∀ sigs v max, registry_functions (state_of (_on sigs v max st))) ∧
  (∀ c, registry_functions (state_of (disconnect c st))) ∧
  (∀ c sigs, registry_functions (state_of (disconnect_from c sigs st))) ∧
  (∀ l, registry_functions (state_of (clear l st))) ∧
  registry_functions (state_of (clear_all st)) ∧
  ∀ h cl (w : W), registry_functions (mkState ∅ h cl w).
Proof.
  intros Hrf.
  split; [intros; by apply on_keeps_functions|].
  split; [intros; by apply on_keeps_functions|].
  split; [intros; by apply _on_keeps_functions|].
  split.
  { intros c. destruct (disconnect_shrinks c st).
    by apply shrinking_keeps_functions with st. }
  split.
  { intros c sigs. destruct (disconnect_from_shrinks c sigs st).
    by apply shrinking_keeps_functions with st. }
  split.
  { intros l. unfold clear.
    destruct (clear_loop_shrinks
      match l with [] => iter_keys (dom (receivers st)) | _ => l end st).
    by apply shrinking_keeps_functions with st. }
  split.
  { unfold clear_all.
    destruct (clear_loop_shrinks (iter_keys (dom (receivers st))) st).
    by apply shrinking_keeps_functions with st. }
  intros h cl w s c Hc. unfold rcv in Hc. simpl in Hc.
  rewrite lookup_empty in Hc. simpl in Hc. set_solver.
Qed.

(** X24.  Starting from an empty table, the registry stays well formed -
    it holds user functions and wrappers of bound methods of user functions
    only - through the registration of any such function or method, through
    emissions whose callbacks are quiet, and through [disconnect],
    [disconnect_from], [clear] and [clear_all]. *)
Theorem registry_stays_well_formed (body : nat → Args → M W unit) st :
  quiet body → wf st →
  (∀ sigs cb max, registrable st cb = true →
     wf (state_of (on sigs (VRef cb) max st))) ∧
  (∀ s args, wf (state_of (emit body s args st))) ∧
  (∀ c, wf (state_of (disconnect c st))) ∧
  (∀ c sigs, wf (state_of (disconnect_from c sigs st))) ∧
  (∀ l, wf (state_of (clear l st))) ∧
  wf (state_of (clear_all st)) ∧
  ∀ h cl (w : W), wf (mkState ∅ h cl w).
Proof.
  intros Hq Hwf.
  split.
  { intros sigs cb max Hreg.
    destruct (on_registrable st cb sigs max Hwf Hreg)
      as (w & st' & -> & _ & Hwf' & _). done. }
  split.
  { intros s args.
    destruct (emit_quiet_wf body Hq st s args Hwf) as (st' & -> & Hwf' & _).
    done. }
  split.
  { intros c. destruct (disconnect_shrinks c st).
    by apply shrinking_keeps_wf with st. }
  split.
  { intros c sigs. destruct (disconnect_from_shrinks c sigs st).
    by apply shrinking_keeps_wf with st. }
  split.
  { intros l. unfold clear.
    destruct (clear_loop_shrinks
      match l with [] => iter_keys (dom (receivers st)) | _ => l end st).
    by apply shrinking_keeps_wf with st. }
  split.
  { unfold clear_all.
    destruct (clear_loop_shrinks (iter_keys (dom (receivers st))) st).
    by apply shrinking_keeps_wf with st. }
  intros h cl w s c Hc. unfold rcv in Hc. simpl in Hc.
  rewrite lookup_empty in Hc. simpl in Hc. set_solver.
Qed.

End Invariants.

Section BoundMethods.
Context {W : Type} `{IterOrder}.

(** X25.  A bound method that was registered with [on] cannot be
    disconnected by passing the method: the registry holds the wrapper, so
    [disconnect(method)] finds nothing and changes nothing, and the wrapper
    stays registered.  Disconnecting the object that [on] returned removes
    it. *)
Theorem bound_method_not_disconnected (st : State W) m self f sigs max s :
  registry_functions st →
  kind_of st m = Some (KMethod self f) →
  s ∈ sig_list sigs →
  ∃ w st1 st2,
    on sigs (VRef m) max st = Ok (Registered (VRef w)) st1 ∧
    disconnect m st1 = Ok tt st1 ∧
    disconnect_from m sigs st1 = Ok tt st1 ∧
    w ∈ rcv st1 s ∧
    disconnect w st1 = Ok tt st2 ∧
    (∀ s', w ∉ rcv st2 s').
Proof.
  intros Hrf Hm Hs.
  destruct (on_method st m self f sigs max Hrf Hm)
    as (w & st1 & Hon & _ & _ & _ & Hr & Hrf1 & Hm1).
  assert (Hnot : ∀ s', m ∉ rcv st1 s')
    by (intros s'; by apply method_not_registered with self f).
  destruct (disconnect_spec w st1) as (st2 & Hdw & _ & _ & _ & Hr2).
  destruct (disconnect_from_spec m sigs st1)
    as (st3 & Hdf & Hr3 & Hd3 & Hh3 & Hc3 & Hw3).
  assert (Hkeys : ∀ s', s' ∈ sig_list sigs →
            is_Some (receivers st1 !! s')).
  { intros s' Hs'.
    assert (Hw : w ∈ rcv st1 s').
    { rewrite Hr, decide_True by done. set_solver. }
    destruct (elem_rcv_lookup _ _ _ Hw) as (X & -> & _). eauto. }
  exists w, st1, st2. split; [done|]. split; [|split; [|split; [|split]]].
  - unfold disconnect, bind, signals.
    rewrite filter_none; [done|]. intros s' _. apply Hnot.
  - rewrite Hdf. f_equal. apply state_eq; try done.
    apply receivers_eq.
    + intros s'. rewrite Hr3. case_decide; [|done].
      apply difference_disjoint_L. specialize (Hnot s'). set_solver.
    + rewrite Hd3. apply subseteq_union_1_L, elem_of_subseteq.
      intros s' Hs'%elem_of_list_to_set. by apply elem_of_dom, Hkeys.
  - rewrite Hr, decide_True by done. set_solver.
  - done.
  - intros s'. rewrite Hr2. set_solver.
Qed.

End BoundMethods.

(** ** The small program: instances of the further properties *)

Lemma on_keeps_wf {W} (st : State W) cb sigs max :
  wf st → registrable st cb = true →
  wf (state_of (on sigs (VRef cb) max st)).
Proof.
  intros Hwf Hreg.
  destruct (on_registrable st cb sigs max Hwf Hreg)
    as (w & st' & -> & _ & Hwf' & _). done.
Qed.

Lemma two_registrations_wf sa ca sb cb :
  registrable demo_st ca = true →
  registrable (state_of (on (OneSignal sa) (VRef ca) None demo_st)) cb = true →
  wf (state_of (on (OneSignal sb) (VRef cb) None
        (state_of (on (OneSignal sa) (VRef ca) None demo_st)))).
Proof.
  intros Ha Hb. apply on_keeps_wf; [|done].
  apply on_keeps_wf; [exact demo_st_wf|done].
Qed.

Lemma snap_st_wf : wf snap_st.
Proof.
  assert (snap_st = state_of (on (OneSignal "S") (VRef 2) None
            (state_of (on (OneSignal "S") (VRef 1) None demo_st)))) as ->
    by (vm_compute; reflexivity).
  by apply two_registrations_wf.
Qed.


Lemma scoped_st_wf : wf scoped_st.
Proof.
  assert (scoped_st = state_of (on (OneSignal "exit") (VRef 2) None
            (state_of (on (OneSignal "enter") (VRef 1) None demo_st)))) as ->
    by (vm_compute; reflexivity).
  by apply two_registrations_wf.
Qed.

Lemma failing_block_keeps_wf (st0 : State (list nat)) :
  wf st0 → wf (state_of (failing_block st0)).
Proof. done. Qed.

Lemma disconnect_unregistered_witness :
  (∀ s, 1%nat ∉ rcv demo_st s) ∧ disconnect 1 demo_st = Ok tt demo_st.
Proof.
  assert (Hnot : ∀ s, 1%nat ∉ rcv demo_st s).
  { intros s. unfold rcv. simpl. rewrite lookup_empty. simpl.
    apply not_elem_of_empty. }
  split; [exact Hnot|]. exact (disconnect_unregistered 1 demo_st Hnot).
Defined.

Lemma on_registers_function_witness :
  heap demo_st !! 1%nat = Some (mkObj (KFunction (UserCode 1)) no_attrs) ∧
  ∃ st' l,
    on (ManySignals ["A"; "B"]) (VRef 1) (Some 4) demo_st
      = Ok (Registered (VRef 1)) st' ∧
    (∀ s, s ∈ ["A"; "B"] → value_of (responds_to 1 s st') = Some true) ∧
    signals 1 st' = Ok l st' ∧ (∀ s, s ∈ ["A"; "B"] → s ∈ l) ∧
    max_calls_of st' 1 = Some (Some 4).
Proof.
  assert (Ha : heap demo_st !! 1%nat
               = Some (mkObj (KFunction (UserCode 1)) no_attrs))
    by reflexivity.
  split; [exact Ha|].
  destruct (on_registers_function demo_st 1 (UserCode 1) no_attrs
              (ManySignals ["A"; "B"]) (Some 4) Ha)
    as (st' & l & Hon & Hresp & Hsig & Hl & Hmax & _).
  exists st', l. auto.
Defined.

Lemma decorator_rejects_bound_method_witness :
  kind_of demo_st 10 = Some (KMethod (VRef 20) 11) ∧
  (reg <- on (OneSignal "S") VNone None ;; apply_registrar reg (VRef 10))
    demo_st = Err AttributeError demo_st ∧
  ∃ w st', on (OneSignal "S") (VRef 10) None demo_st
             = Ok (Registered (VRef w)) st' ∧
           ∀ s, s ∈ sig_list (OneSignal "S") → w ∈ rcv st' s.
Proof.
  split; [reflexivity|].
  exact (decorator_rejects_bound_method demo_st 10 (VRef 20) 11
           (OneSignal "S") None eq_refl).
Defined.

Lemma decorator_registers_like_direct_call_witness :
  heap demo_st !! 1%nat = Some (mkObj (KFunction (UserCode 1)) no_attrs) ∧
  (reg <- on (OneSignal "S") VNone (Some 2) ;;
   v <- apply_registrar reg (VRef 1) ;; ret (Registered v)) demo_st
    = on (OneSignal "S") (VRef 1) (Some 2) demo_st ∧
  (reg <- on (OneSignal "S") (VInt 7) (Some 2) ;;
   v <- apply_registrar reg (VRef 1) ;; ret (Registered v)) demo_st
    = on (OneSignal "S") (VRef 1) (Some 7) demo_st ∧
  ∃ st', on (OneSignal "S") (VRef 1) (Some 2) demo_st
         = Ok (Registered (VRef 1)) st'.
Proof.
  split; [reflexivity|].
  exact (decorator_registers_like_direct_call demo_st 1 (UserCode 1) no_attrs
           (OneSignal "S") (Some 2) 7 eq_refl).
Defined.

Lemma once_as_decorator_witness :
  heap demo_st !! 1%nat = Some (mkObj (KFunction (UserCode 1)) no_attrs) ∧
  (reg <- once (OneSignal "S") VNone ;;
   v <- apply_registrar reg (VRef 1) ;; ret (Registered v)) demo_st
    = once (OneSignal "S") (VRef 1) demo_st ∧
  (∃ st', once (OneSignal "S") (VRef 1) demo_st
          = Ok (Registered (VRef 1)) st' ∧
          max_calls_of st' 1 = Some (Some 1)) ∧
  once (OneSignal "S") (VInt 5) demo_st
    = Ok (Registrar (OneSignal "S") (Some 5)) demo_st.
Proof.
  split; [reflexivity|].
  exact (once_as_decorator demo_st 1 (UserCode 1) no_attrs
           (OneSignal "S") 5 eq_refl).
Defined.

Lemma register_then_disconnect_from_witness :
  heap ab_st !! 2%nat
    = Some (mkObj (KFunction (UserCode 2))
              (mkAttrs (Some None) true true true true)) ∧
  (∀ s, s ∈ sig_list (ManySignals ["A"; "C"]) → 2%nat ∉ rcv ab_st s) ∧
  ∃ st1 st2,
    on (ManySignals ["A"; "C"]) (VRef 2) (Some 3) ab_st
      = Ok (Registered (VRef 2)) st1 ∧
    disconnect_from 2 (ManySignals ["A"; "C"]) st1 = Ok tt st2 ∧
    (∀ s, rcv st2 s = rcv ab_st s) ∧
    max_calls_of st2 2 = Some (Some 3).
Proof.
  assert (Ha : heap ab_st !! 2%nat
               = Some (mkObj (KFunction (UserCode 2))
                         (mkAttrs (Some None) true true true true)))
    by (vm_compute; reflexivity).
  assert (Hnot : ∀ s, s ∈ sig_list (ManySignals ["A"; "C"]) →
                      2%nat ∉ rcv ab_st s).
  { intros s Hs. simpl in Hs.
    apply elem_of_cons in Hs as [->|Hs]; [compute_done|].
    apply list_elem_of_singleton in Hs as ->. compute_done. }
  split; [exact Ha|]. split; [exact Hnot|].
  exact (register_then_disconnect_from ab_st 2 _ _
           (ManySignals ["A"; "C"]) (Some 3) Ha Hnot).
Defined.

Lemma clear_listed_signals_witness :
  ["A"; "C"] ≠ [] ∧
  ∃ st', clear ["A"; "C"] ab_st = Ok tt st' ∧
    (∀ s, receivers st' !! s =
          if decide (s ∈ ["A"; "C"]) then Some ∅ else receivers ab_st !! s) ∧
    dom (receivers st') = list_to_set ["A"; "C"] ∪ dom (receivers ab_st) ∧
    heap st' = heap ab_st ∧ calls st' = calls ab_st ∧
    world st' = world ab_st.
Proof.
  assert (Hne : ["A"; "C"] ≠ @nil string) by discriminate.
  split; [exact Hne|].
  exact (clear_listed_signals ["A"; "C"] ab_st Hne).
Defined.

Lemma emit_without_receivers_witness :
  rcv ab_st "C" = ∅ ∧
  ∃ st', emit failing_body "C" no_args ab_st = Ok tt st' ∧
    (∀ s', rcv st' s' = rcv ab_st s') ∧
    heap st' = heap ab_st ∧ calls st' = calls ab_st ∧
    world st' = world ab_st ∧
    dom (receivers st') = {["C"]} ∪ dom (receivers ab_st) ∧
    (is_Some (receivers ab_st !! "C") → st' = ab_st).
Proof.
  assert (He : rcv ab_st "C" = ∅) by (vm_compute; reflexivity).
  split; [exact He|].
  exact (emit_without_receivers failing_body "C" no_args ab_st He).
Defined.

Lemma noting_body_quiet : quiet noting_body.
Proof. intros n a st. by exists (world st ++ [(n, a)]). Qed.

Lemma noting_body_journal : keeps_journal id pair noting_body.
Proof. by intros n a st. Qed.

Lemma empty_registry_wf {W} h l (w : W) : wf (mkState ∅ h l w).
Proof. intros s c Hc. unfold rcv in Hc. simpl in Hc. set_solver. Qed.

Lemma noting_st_wf : wf noting_st.
Proof.
  assert (noting_st = state_of (on (OneSignal "S") (VRef 10) None
            (state_of (on (OneSignal "S") (VRef 1) None
               (mkState ∅ demo_heap [] []))))) as ->
    by (vm_compute; reflexivity).
  apply on_keeps_wf; [|vm_compute; reflexivity].
  apply on_keeps_wf; [apply empty_registry_wf|reflexivity].
Qed.

Lemma emit_passes_arguments_witness :
  let args := mkArgs [VInt 1] [("k", VStr "v")] in
  quiet noting_body ∧ keeps_journal id pair noting_body ∧ wf noting_st ∧
  ∃ st', emit noting_body "S" args noting_st = Ok tt st' ∧
    id (world st') =
      id (world noting_st) ++ map (entry_of pair) (emit_runs noting_st "S" args) ∧
    Forall (λ p, p.2 = args ∨ ∃ self, p.2 = bind_self self args)
      (emit_runs noting_st "S" args).
Proof.
  intros args.
  split; [exact noting_body_quiet|]. split; [exact noting_body_journal|].
  split; [exact noting_st_wf|].
  destruct (emit_passes_arguments noting_body noting_body_quiet id pair
              noting_body_journal "S" args noting_st noting_st_wf)
    as (st' & Hrun & Hlog & Hall & _).
  exists st'. split; [exact Hrun|]. split; [exact Hlog|]. exact Hall.
Defined.

(** The run of the witness above: the function [1] runs with the arguments
    of the emission, the function [11] of the bound method [10] with the
    instance [20] before them. *)
Example emit_passes_arguments_run :
  let args := mkArgs [VInt 1] [("k", VStr "v")] in
  world (state_of (emit noting_body "S" args noting_st)) =
    [(11%nat, bind_self (VRef 20) args); (1%nat, args)].
Proof. vm_compute. reflexivity. Qed.


Lemma limited_callback_over_emissions_witness :
  quiet demo_body ∧ keeps_journal id function_ran demo_body ∧
  wf registered_st ∧ 1%nat ∈ rcv registered_st "S" ∧
  max_calls_of registered_st 1 = Some (Some 3) ∧
  code_of registered_st 1 = Some 1%nat ∧ only_runner registered_st "S" 1 1 ∧
  ∃ st', for_each (replicate 5 no_args) (λ a, emit demo_body "S" a)
           registered_st = Ok tt st' ∧
    wf st' ∧
    times_run id 1 st' = (times_run id 1 registered_st + 3)%nat ∧
    times_called 1 st' = (times_called 1 registered_st + 3)%nat ∧
    ∀ s', 1%nat ∉ rcv st' s'.
Proof.
  assert (Hin : 1%nat ∈ rcv registered_st "S") by compute_done.
  assert (Hmax : max_calls_of registered_st 1 = Some (Some 3))
    by (vm_compute; reflexivity).
  assert (Hcode : code_of registered_st 1 = Some 1%nat)
    by (vm_compute; reflexivity).
  split; [exact demo_body_quiet|]. split; [exact demo_body_tally|].
  split; [exact registered_st_wf|].
  split; [exact Hin|]. split; [exact Hmax|]. split; [exact Hcode|].
  split; [exact registered_st_only_runner|].
  destruct (limited_callback_over_emissions demo_body demo_body_quiet id
              demo_body_tally 1 "S" 1 (replicate 5 no_args) registered_st 3
              registered_st_wf Hin Hmax Hcode registered_st_only_runner)
    as (st' & Hrun & Hwf & Hn & Ht & Hend).
  exists st'. split; [exact Hrun|]. split; [exact Hwf|].
  split; [exact Hn|]. split; [exact Ht|]. exact Hend.
Defined.

Lemma snap_st_only_runner : only_runner snap_st "S" 1 1.
Proof.
  intros c' Hc' Hne.
  assert (Hset : rcv snap_st "S" = {[1%nat; 2%nat]}) by (vm_compute; reflexivity).
  rewrite Hset in Hc'.
  apply elem_of_union in Hc' as [Hc'|Hc']; apply elem_of_singleton in Hc';
    [done|]. subst c'. vm_compute. discriminate.
Qed.

Lemma unlimited_callback_over_emissions_witness :
  quiet demo_body ∧ keeps_journal id function_ran demo_body ∧
  wf snap_st ∧ 1%nat ∈ rcv snap_st "S" ∧
  max_calls_of snap_st 1 = Some None ∧
  code_of snap_st 1 = Some 1%nat ∧ only_runner snap_st "S" 1 1 ∧
  ∃ st', for_each (replicate 4 no_args) (λ a, emit demo_body "S" a)
           snap_st = Ok tt st' ∧
    wf st' ∧
    times_run id 1 st' = (times_run id 1 snap_st + 4)%nat ∧
    times_called 1 st' = (times_called 1 snap_st + 4)%nat ∧
    1%nat ∈ rcv st' "S" ∧ max_calls_of st' 1 = Some None.
Proof.
  assert (Hin : 1%nat ∈ rcv snap_st "S") by compute_done.
  assert (Hmax : max_calls_of snap_st 1 = Some None)
    by (vm_compute; reflexivity).
  assert (Hcode : code_of snap_st 1 = Some 1%nat)
    by (vm_compute; reflexivity).
  split; [exact demo_body_quiet|]. split; [exact demo_body_tally|].
  split; [exact snap_st_wf|].
  split; [exact Hin|]. split; [exact Hmax|]. split; [exact Hcode|].
  split; [exact snap_st_only_runner|].
  exact (unlimited_callback_over_emissions demo_body demo_body_quiet id
           demo_body_tally 1 "S" 1 (replicate 4 no_args) snap_st snap_st_wf
           Hin Hmax Hcode snap_st_only_runner).
Defined.

Lemma call_without_counter_witness :
  quiet demo_body ∧ keeps_journal id function_ran demo_body ∧
  invocable demo_st 1 = true ∧ max_calls_of demo_st 1 = None ∧
  ∃ st' n a, _call demo_body 1 no_args demo_st = Ok tt st' ∧
    max_calls_of st' 1 = Some None ∧
    target demo_st 1 no_args = Some (n, a) ∧
    id (world st') = id (world demo_st) ++ [function_ran n a] ∧
    times_called 1 st' = S (times_called 1 demo_st) ∧
    (∀ s, 1%nat ∈ rcv st' s ↔ 1%nat ∈ rcv demo_st s) ∧
    (∀ r, r ≠ 1%nat → heap st' !! r = heap demo_st !! r).
Proof.
  split; [exact demo_body_quiet|]. split; [exact demo_body_tally|].
  split; [reflexivity|]. split; [reflexivity|].
  exact (call_without_counter demo_body demo_body_quiet id function_ran
           demo_body_tally demo_st 1 no_args eq_refl eq_refl).
Defined.

Lemma emitting_keeps_outcome_witness :
  quiet demo_body ∧ wf scoped_st ∧
  (∀ st0, wf st0 → wf (state_of (failing_block st0))) ∧
  ∃ st0 st2,
    emit demo_body "enter" no_args scoped_st = Ok tt st0 ∧
    emit demo_body "exit" no_args (state_of (failing_block st0)) = Ok tt st2 ∧
    emitting demo_body "exit" (Some "enter") failing_block scoped_st =
      match failing_block st0 with
      | Ok _ _ => Ok tt st2
      | Err e _ => Err e st2
      end.
Proof.
  split; [exact demo_body_quiet|]. split; [exact scoped_st_wf|].
  split; [exact failing_block_keeps_wf|].
  exact (emitting_keeps_outcome demo_body demo_body_quiet scoped_st "exit"
           (Some "enter") failing_block scoped_st_wf failing_block_keeps_wf).
Defined.


Lemma registry_holds_only_functions_witness :
  registry_functions demo_st ∧
  registry_functions (state_of (on (OneSignal "S") (VRef 10) None demo_st)) ∧
  registry_functions (state_of (on (OneSignal "S") (VRef 20) None demo_st)) ∧
  registry_functions (state_of (_on (OneSignal "S") (VRef 10) None demo_st)).
Proof.
  destruct (registry_holds_only_functions demo_st demo_st_registry_functions)
    as (Hon & _ & H_on & _).
  split; [exact demo_st_registry_functions|].
  split; [apply Hon|]. split; [apply Hon|]. apply H_on.
Defined.

Lemma registry_stays_well_formed_witness :
  quiet demo_body ∧ wf snap_st ∧
  wf (state_of (on (OneSignal "T") (VRef 10) (Some 1) snap_st)) ∧
  wf (state_of (emit demo_body "S" no_args snap_st)) ∧
  wf (state_of (disconnect 1 snap_st)) ∧
  wf (state_of (clear_all snap_st)).
Proof.
  destruct (registry_stays_well_formed demo_body snap_st demo_body_quiet
              snap_st_wf) as (Hon & Hemit & Hdis & _ & _ & Hclear & _).
  split; [exact demo_body_quiet|]. split; [exact snap_st_wf|].
  split; [apply Hon; vm_compute; reflexivity|].
  split; [apply Hemit|]. split; [apply Hdis|]. exact Hclear.
Defined.

Lemma bound_method_not_disconnected_witness :
  registry_functions demo_st ∧
  kind_of demo_st 10 = Some (KMethod (VRef 20) 11) ∧
  "S" ∈ sig_list (OneSignal "S") ∧
  ∃ w st1 st2,
    on (OneSignal "S") (VRef 10) None demo_st = Ok (Registered (VRef w)) st1 ∧
    disconnect 10 st1 = Ok tt st1 ∧
    disconnect_from 10 (OneSignal "S") st1 = Ok tt st1 ∧
    w ∈ rcv st1 "S" ∧
    disconnect w st1 = Ok tt st2 ∧
    (∀ s', w ∉ rcv st2 s').
Proof.
  assert (Hs : "S" ∈ sig_list (OneSignal "S")) by left.
  split; [exact demo_st_registry_functions|]. split; [reflexivity|].
  split; [exact Hs|].
  exact (bound_method_not_disconnected demo_st 10 (VRef 20) 11
           (OneSignal "S") None "S" demo_st_registry_functions eq_refl Hs).
Defined.
